(** * terraform-clean-syntax: the token rewriters and the body walker

    A shallow embedding of [main.go] (functions [trimNewlines],
    [cleanValueExpr], [cleanTypeExpr], [cleanBody], [cleanFile]) and the
    properties of the specification that are about them.

    Conventions.
    - A Go run-time panic (index or slice bounds out of range) is the
      outcome [None]; a normal return of [v] is [Some v].
    - [hclwrite.Tokens] is [[]*Token]; the program never writes through
      these pointers, so a token sequence is a list of token values.
    - Go's [int] is taken as 64 bits wide, with its wrap-around written out.
    - The slice [inBlocks []string] is modelled with its backing array in a
      store, because [append] may write into an array that is shared. *)

From stdpp Require Import gmap strings list fin_maps.
From Stdlib Require Import ZArith Lia.

(** ** Tokens (package hclsyntax / hclwrite) *)

(** [hclsyntax.TokenType]: the token kinds of the HCL scanner. *)
Inductive TokenType :=
  | TokenOBrace | TokenCBrace | TokenOBrack | TokenCBrack
  | TokenOParen | TokenCParen | TokenOQuote | TokenCQuote
  | TokenOHeredoc | TokenCHeredoc
  | TokenStar | TokenSlash | TokenPlus | TokenMinus | TokenPercent
  | TokenEqual | TokenEqualOp | TokenNotEqual
  | TokenLessThan | TokenLessThanEq | TokenGreaterThan | TokenGreaterThanEq
  | TokenAnd | TokenOr | TokenBang
  | TokenDot | TokenComma | TokenEllipsis | TokenFatArrow
  | TokenQuestion | TokenColon
  | TokenTemplateInterp | TokenTemplateControl | TokenTemplateSeqEnd
  | TokenQuotedLit | TokenStringLit | TokenNumberLit | TokenIdent
  | TokenComment | TokenNewline | TokenEOF
  | TokenBitwiseAnd | TokenBitwiseOr | TokenBitwiseNot | TokenBitwiseXor
  | TokenStarStar | TokenApostrophe | TokenBacktick | TokenSemicolon
  | TokenTabs | TokenInvalid | TokenBadUTF8 | TokenQuotedNewline
  | TokenNil.

#[global] Instance TokenType_eq_dec : EqDecision TokenType.
Proof. solve_decision. Defined.

(** [hclwrite.Token]: a kind, the raw bytes, and the count of spaces that
    the printer puts in front of it. *)
Record Token := mkToken {
  Type_ : TokenType;
  Bytes : string;
  SpacesBefore : Z
}.

#[global] Instance Token_eq_dec : EqDecision Token.
Proof. solve_decision. Defined.

Abbreviation Tokens := (list Token).

(** A token built with a composite literal that gives [Type] and [Bytes]
    only: [SpacesBefore] has its zero value. *)
Definition lit (ty : TokenType) (bytes : string) : Token :=
  mkToken ty bytes 0.

(** ** Go primitives *)

(** Go's [int], 64 bits, two's complement. *)
Definition wrap_int (z : Z) : Z :=
  ((z + 2 ^ 63) mod 2 ^ 64 - 2 ^ 63)%Z.

(** The slice expression [s[lo:hi]]. It panics unless [lo <= hi] and [hi]
    is within bounds; every [hi] of this program is at most [len(s)]. *)
Definition slice_expr {A} (s : list A) (lo hi : nat) : option (list A) :=
  if decide (lo ≤ hi ∧ hi ≤ length s) then Some (take (hi - lo) (drop lo s))
  else None.

(** ** trimNewlines *)

Definition is_newline (t : Token) : bool :=
  bool_decide (Type_ t = TokenNewline).

(** [for start = 0; start < len(tokens); start++]: [n] is the number of
    iterations left, [len(tokens) - start]. *)
Fixpoint trim_start (tokens : Tokens) (n start : nat) : option nat :=
  match n with
  | 0 => Some start
  | S n' =>
      t ← tokens !! start;
      if negb (is_newline t) then Some start
      else trim_start tokens n' (S start)
  end.

(** [for end = len(tokens); end > 0; end--]. *)
Fixpoint trim_end (tokens : Tokens) (end_ : nat) : option nat :=
  match end_ with
  | 0 => Some 0
  | S e =>
      t ← tokens !! e;
      if negb (is_newline t) then Some (S e)
      else trim_end tokens e
  end.

Definition trimNewlines (tokens : Tokens) : option Tokens :=
  if decide (length tokens = 0) then Some []
  else
    start ← trim_start tokens (length tokens) 0;
    end_ ← trim_end tokens (length tokens);
    slice_expr tokens start end_.

(** ** cleanValueExpr *)

Definition is_type (ty : TokenType) (t : Token) : bool :=
  bool_decide (Type_ t = ty).

(** The loop over [inside]; [true] is the early [return tokens]. *)
Fixpoint scan_inside (inside : Tokens) (quotes : Z) : bool :=
  match inside with
  | [] => false
  | token :: rest =>
      if is_type TokenOQuote token then scan_inside rest (wrap_int (quotes + 1))
      else if is_type TokenCQuote token then scan_inside rest (wrap_int (quotes - 1))
      else if (quotes >? 0)%Z then scan_inside rest quotes
      else if is_type TokenTemplateInterp token || is_type TokenTemplateSeqEnd token
      then true
      else scan_inside rest quotes
  end.

Definition cleanValueExpr (tokens : Tokens) : option Tokens :=
  if decide (length tokens < 5) then Some tokens
  else
    oQuote ← tokens !! 0;
    oBrace ← tokens !! 1;
    cBrace ← tokens !! (length tokens - 2);
    cQuote ← tokens !! (length tokens - 1);
    if negb (is_type TokenOQuote oQuote)
       || negb (is_type TokenTemplateInterp oBrace)
       || negb (is_type TokenTemplateSeqEnd cBrace)
       || negb (is_type TokenCQuote cQuote)
    then Some tokens
    else
      inside ← slice_expr tokens 2 (length tokens - 2);
      if scan_inside inside 0 then Some tokens
      else trimNewlines inside.

(** ** cleanTypeExpr *)

Definition cleanTypeExpr (tokens : Tokens) : Tokens :=
  if decide (length tokens ≠ 3) then tokens
  else
    match tokens with
    | [oQuote; strTok; cQuote] =>
        if negb (is_type TokenOQuote oQuote)
           || negb (is_type TokenQuotedLit strTok)
           || negb (is_type TokenCQuote cQuote)
        then tokens
        else if decide (Bytes strTok = "string") then
          [lit TokenIdent "string"]
        else if decide (Bytes strTok = "list") then
          [lit TokenIdent "list"; lit TokenOParen "(";
           lit TokenIdent "string"; lit TokenCParen ")"]
        else if decide (Bytes strTok = "map") then
          [lit TokenIdent "map"; lit TokenOParen "(";
           lit TokenIdent "string"; lit TokenCParen ")"]
        else tokens
    | _ => tokens
    end.

(** ** Slices of strings (the [inBlocks] argument)

    A slice is a window on a backing array held in the store. Every
    [[]string] of this program is [nil] or comes from [append], so it starts
    at the first element of its array. *)

Record slice := mkSlice {
  base : nat;     (* which backing array *)
  len : nat;
  cap : nat
}.

Abbreviation store := (list (list string)).

(** [nil]: no element, no capacity. *)
Definition nil_slice : slice := mkSlice 0 0 0.

(** [s[i]], with its bounds check. *)
Definition index (σ : store) (s : slice) (i : nat) : option string :=
  if decide (i < len s) then a ← σ !! base s; a !! i else None.

(** The elements that are visible through [s]. *)
Definition contents (σ : store) (s : slice) : list string :=
  take (len s) (default [] (σ !! base s)).

(** ** The structural tree (package hclwrite)

    [hclwrite.Body] through the methods the program calls: [Attributes] (a
    map from name to attribute), [SetAttributeRaw], [Blocks], and for a block
    [Type] and [Body]. Comments and blank lines are carried along as
    tokens that no method of the program reaches. *)

Record Attribute := mkAttribute {
  leadComments : Tokens;
  expr : Tokens;
  lineComments : Tokens
}.

Inductive Body :=
  | mkBody (attrs : gmap string Attribute) (blocks : list Block)
           (trivia : Tokens)
with Block :=
  | mkBlock (btype : string) (labels : list string) (bbody : Body).

Definition Attributes (b : Body) : gmap string Attribute :=
  match b with mkBody attrs _ _ => attrs end.
Definition Blocks (b : Body) : list Block :=
  match b with mkBody _ blocks _ => blocks end.
Definition Trivia (b : Body) : Tokens :=
  match b with mkBody _ _ trivia => trivia end.
Definition BlockType (k : Block) : string :=
  match k with mkBlock ty _ _ => ty end.
Definition BlockLabels (k : Block) : list string :=
  match k with mkBlock _ ls _ => ls end.
Definition BlockBody (k : Block) : Body :=
  match k with mkBlock _ _ b => b end.

(** [body.SetAttributeRaw(name, tokens)]: the expression of the attribute
    of that name is replaced; a body without it gets a new attribute. *)
Definition SetAttributeRaw (name : string) (tokens : Tokens)
    (attrs : gmap string Attribute) : gmap string Attribute :=
  match attrs !! name with
  | Some a => <[name := mkAttribute (leadComments a) tokens (lineComments a)]> attrs
  | None => <[name := mkAttribute [] tokens []]> attrs
  end.

(** ** cleanBody *)

Inductive simplifier := TypeExpr | ValueExpr.

#[global] Instance simplifier_eq_dec : EqDecision simplifier.
Proof. solve_decision. Defined.

Definition simplify (which : simplifier) (tokens : Tokens) : option Tokens :=
  match which with
  | TypeExpr => Some (cleanTypeExpr tokens)
  | ValueExpr => cleanValueExpr tokens
  end.

(** What a run lets one observe of the context: the list that a call finds
    in [inBlocks] on entry, and at each attribute the list it finds there,
    the attribute's name and the simplifier it chose. *)
Inductive event :=
  | Enter (ctx : list string)
  | Visit (ctx : list string) (name : string) (which : simplifier).

(** [len(inBlocks) == 1 && inBlocks[0] == "variable" && name == "type"],
    evaluated left to right. *)
Definition route (σ : store) (inBlocks : slice) (name : string)
    : option simplifier :=
  if decide (len inBlocks = 1) then
    b0 ← index σ inBlocks 0;
    if decide (b0 = "variable") then
      if decide (name = "type") then Some TypeExpr else Some ValueExpr
    else Some ValueExpr
  else Some ValueExpr.

Section Walker.

(** The order in which [range] goes through a map is not specified. *)
Variable range_order : gmap string Attribute → list string.
Hypothesis range_order_perm :
  ∀ m, range_order m ≡ₚ (map_to_list m).*1.

(** The capacity that [append] gives to a new backing array, from the old
    capacity and the length that is needed. *)
Variable growslice : nat → nat → nat.
Hypothesis growslice_fits : ∀ c n, n ≤ growslice c n.

(** [append(s, v)]. *)
Definition append (σ : store) (s : slice) (v : string) : slice * store :=
  if decide (len s < cap s) then
    (mkSlice (base s) (S (len s)) (cap s),
     alter (λ a, <[len s := v]> a) (base s) σ)
  else
    let newcap := growslice (cap s) (S (len s)) in
    (mkSlice (length σ) (S (len s)) newcap,
     σ ++ [contents σ s ++ v :: replicate (newcap - S (len s)) ""]).

(** One turn of the loop over the attributes. [chosen] is the test on
    [inBlocks], [ctx] what [inBlocks] holds. *)
Definition clean_attr (chosen : string → option simplifier)
    (ctx : list string)
    (st : gmap string Attribute * list event) (name : string)
    : option (gmap string Attribute * list event) :=
  which ← chosen name;
  attr ← st.1 !! name;
  cleanedExprTokens ← simplify which (expr attr);
  Some (SetAttributeRaw name cleanedExprTokens st.1,
        st.2 ++ [Visit ctx name which]).

Fixpoint clean_attrs (chosen : string → option simplifier)
    (ctx : list string) (names : list string)
    (st : gmap string Attribute * list event)
    : option (gmap string Attribute * list event) :=
  match names with
  | [] => Some st
  | name :: rest =>
      st' ← clean_attr chosen ctx st name;
      clean_attrs chosen ctx rest st'
  end.

(** The loop over the blocks; [rec] is the recursive call. The [inBlocks]
    of the loop's body shadows the parameter, and the [append] is on the
    parameter. *)
Definition for_blocks
    (rec : Body → slice → store → option (Body * store * list event))
    (inBlocks : slice)
    : list Block → store → option (list Block * store * list event) :=
  fix loop (blocks : list Block) (σ : store) {struct blocks} :=
    match blocks with
    | [] => Some ([], σ, [])
    | mkBlock ty ls sub :: rest =>
        let ap := append σ inBlocks ty in
        r1 ← rec sub ap.1 ap.2;
        r2 ← loop rest r1.1.2;
        Some (mkBlock ty ls r1.1.1 :: r2.1.1, r2.1.2, r1.2 ++ r2.2)
    end.

(** A block's body is reached through a pointer: what the recursive call
    does to it shows in the tree that the caller holds. *)
Fixpoint cleanBody (body : Body) (inBlocks : slice) (σ : store)
    : option (Body * store * list event) :=
  match body with
  | mkBody attrs blocks trivia =>
      st ← clean_attrs (route σ inBlocks) (contents σ inBlocks)
             (range_order attrs) (attrs, [Enter (contents σ inBlocks)]);
      r ← for_blocks cleanBody inBlocks blocks σ;
      Some (mkBody st.1 r.1.1 trivia, r.1.2, st.2 ++ r.2)
  end.

Definition cleanFile (f : Body) (σ : store)
    : option (Body * store * list event) :=
  cleanBody f nil_slice σ.

(** *** The walker over immutable contexts

    The walk as the specification words it: the context is a list, and
    each child block is walked with the list of its parent extended by its
    own type. *)

Definition chosen_by (ctx : list string) (name : string) : simplifier :=
  if decide (ctx = ["variable"] ∧ name = "type") then TypeExpr else ValueExpr.

Definition walk_blocks (rec : Body → list string → option (Body * list event))
    (ctx : list string) : list Block → option (list Block * list event) :=
  fix loop (blocks : list Block) {struct blocks} :=
    match blocks with
    | [] => Some ([], [])
    | mkBlock ty ls sub :: rest =>
        r1 ← rec sub (ctx ++ [ty]);
        r2 ← loop rest;
        Some (mkBlock ty ls r1.1 :: r2.1, r1.2 ++ r2.2)
    end.

Fixpoint walk (body : Body) (ctx : list string)
    : option (Body * list event) :=
  match body with
  | mkBody attrs blocks trivia =>
      st ← clean_attrs (λ name, Some (chosen_by ctx name)) ctx
             (range_order attrs) (attrs, [Enter ctx]);
      r ← walk_blocks walk ctx blocks;
      Some (mkBody st.1 r.1 trivia, st.2 ++ r.2)
  end.

End Walker.

(** ** The guards and the interior, in the words of the specification *)

(** Sequence length at least 5; first token open-quote, second
    interpolation-open, second-to-last interpolation-close, last
    close-quote. *)
Definition value_guard (t : Tokens) : bool :=
  bool_decide (5 ≤ length t)
  && from_option (is_type TokenOQuote) false (head t)
  && from_option (is_type TokenTemplateInterp) false (t !! 1)
  && from_option (is_type TokenTemplateSeqEnd) false (rev t !! 1)
  && from_option (is_type TokenCQuote) false (last t).

(** Exactly three tokens: open-quote, quoted literal, close-quote. *)
Definition type_guard (t : Tokens) : bool :=
  match t with
  | [a; b; c] =>
      is_type TokenOQuote a && is_type TokenQuotedLit b && is_type TokenCQuote c
  | _ => false
  end.

(** The tokens between the two opening and the two closing delimiters. *)
Definition interior (t : Tokens) : Tokens :=
  take (length t - 4) (drop 2 t).

Definition is_interp_delim (t : Token) : bool :=
  is_type TokenTemplateInterp t || is_type TokenTemplateSeqEnd t.

(** The value of [quotes] once the loop of [cleanValueExpr] has gone
    through [seen] without returning. *)
Fixpoint quotes_after (seen : Tokens) (quotes : Z) : Z :=
  match seen with
  | [] => quotes
  | token :: rest =>
      if is_type TokenOQuote token then quotes_after rest (wrap_int (quotes + 1))
      else if is_type TokenCQuote token then quotes_after rest (wrap_int (quotes - 1))
      else quotes_after rest quotes
  end.

(** ** Example token sequences *)

Definition dq : string := String (Ascii.ascii_of_nat 34) EmptyString.
Definition nl : string := String (Ascii.ascii_of_nat 10) EmptyString.
Definition tOQuote := lit TokenOQuote dq.
Definition tCQuote := lit TokenCQuote dq.
Definition tInterp := lit TokenTemplateInterp "${".
Definition tSeqEnd := lit TokenTemplateSeqEnd "}".
Definition tNewline := lit TokenNewline nl.
Definition tIdent (s : string) := lit TokenIdent s.
Definition tOParen := lit TokenOParen "(".
Definition tCParen := lit TokenCParen ")".

(** The tokens of a quoted literal. *)
Definition quoted (s : string) : Tokens :=
  [tOQuote; lit TokenQuotedLit s; tCQuote].

(** The tokens of a string that holds one interpolation. *)
Definition wrapped (inside : Tokens) : Tokens :=
  tOQuote :: tInterp :: inside ++ [tSeqEnd; tCQuote].

(** The first token that is not a newline. *)
Fixpoint first_significant (ts : Tokens) : option Token :=
  match ts with
  | [] => None
  | t :: rest => if is_newline t then first_significant rest else Some t
  end.

(** [foo_of_bar] is the expression that calls [foo] on a string holding
    the interpolation of [bar]; [foo_then_bar] is the string that holds the
    interpolation of [foo] and then that of [bar]. *)
Definition foo_of_bar : Tokens :=
  [tIdent "foo"; tOParen; tOQuote; tInterp; tIdent "bar"; tSeqEnd; tCQuote;
   tCParen].
Definition foo_then_bar : Tokens :=
  wrapped [tIdent "foo"; tSeqEnd; tInterp; tIdent "bar"].

(** ** Places in the tree *)

(** The body reached from [b] by going into the blocks of the given
    indices, and the context that the walker has there. *)
Fixpoint body_at (b : Body) (path : list nat) : option Body :=
  match path with
  | [] => Some b
  | i :: p => k ← Blocks b !! i; body_at (BlockBody k) p
  end.

Fixpoint context_at (b : Body) (ctx : list string) (path : list nat)
    : option (list string) :=
  match path with
  | [] => Some ctx
  | i :: p =>
      k ← Blocks b !! i; context_at (BlockBody k) (ctx ++ [BlockType k]) p
  end.

(** The tree without the tokens of its attributes' expressions. *)
Fixpoint erase (b : Body) : Body :=
  match b with
  | mkBody attrs blocks trivia =>
      mkBody ((λ a, mkAttribute (leadComments a) [] (lineComments a)) <$> attrs)
        (map (λ k, match k with
                   | mkBlock ty ls sub => mkBlock ty ls (erase sub)
                   end) blocks)
        trivia
  end.

(** No expression of the tree has the shape that a simplifier asks for. *)
Fixpoint unmatched (b : Body) : bool :=
  match b with
  | mkBody attrs blocks _ =>
      forallb (λ na, negb (value_guard (expr na.2))
                     && negb (type_guard (expr na.2))) (map_to_list attrs)
      && forallb (λ k, match k with mkBlock _ _ sub => unmatched sub end) blocks
  end.

(** A slice that the run time can have built: within its capacity, and its
    capacity within its backing array. *)
Definition slice_ok (σ : store) (s : slice) : Prop :=
  len s ≤ cap s ∧
  (0 < cap s → ∃ a, σ !! base s = Some a ∧ cap s ≤ length a).

(** From [σ] to [σ'] no array is lost or resized, only the array of [s] is
    written, and not where [s] sees it. *)
Definition keeps (s : slice) (σ σ' : store) : Prop :=
  ∀ b a, σ !! b = Some a →
    ∃ a', σ' !! b = Some a' ∧ length a' = length a
      ∧ (b ≠ base s → a' = a) ∧ take (len s) a' = take (len s) a.

(** An attribute after the simplifier [which] has been through it. *)
Definition cleaned_attr (which : simplifier) (a : Attribute)
    : option Attribute :=
  cleaned ← simplify which (expr a);
  Some (mkAttribute (leadComments a) cleaned (lineComments a)).

(** Every [Visit] of a log records the simplifier that the context and the
    name call for. *)
Definition routed (e : event) : Prop :=
  match e with
  | Enter _ => True
  | Visit ctx name which => which = chosen_by ctx name
  end.

(** A run on slices against a walk on lists: the same outcome, the same
    tree and the same observations, and a store that keeps the slice. *)
Definition refines {X} (s : slice) (σ : store)
    (run : option (X * store * list event))
    (pure : option (X * list event)) : Prop :=
  match run with
  | Some r => pure = Some (r.1.1, r.2) ∧ keeps s σ r.1.2
  | None => pure = None
  end.

(** A tree with a block in a block in a block that holds two blocks, the
    shortest on which [append] writes twice into one array; and the tree,
    the store and the log that the walker leaves. *)
Definition attr_of (ts : Tokens) : Attribute := mkAttribute [] ts [].
Definition leaf (s : string) : Body :=
  mkBody {[ "type" := attr_of (quoted s) ]} [] [].
Definition nested : Body :=
  mkBody ∅
    [mkBlock "b" []
       (mkBody ∅ [mkBlock "c" [] (leaf "map");
                  mkBlock "d" [] (leaf "string")] [])] [].
Definition variable_body : Body :=
  mkBody {[ "type" := attr_of (quoted "list");
            "default" := attr_of (wrapped [tIdent "foo"]) ]}
    [mkBlock "a" [] nested] [tNewline].
Definition deep : Body :=
  mkBody {[ "type" := attr_of (quoted "list") ]}
    [mkBlock "variable" ["v"] variable_body] [].
Definition variable_body_cleaned : Body :=
  mkBody {[ "type" := attr_of [tIdent "list"; tOParen; tIdent "string"; tCParen];
            "default" := attr_of [tIdent "foo"] ]}
    [mkBlock "a" [] nested] [tNewline].
Definition deep_cleaned : Body :=
  mkBody {[ "type" := attr_of (quoted "list") ]}
    [mkBlock "variable" ["v"] variable_body_cleaned] [].
Definition deep_store : store :=
  [["variable"]; ["variable"; "a"]; ["variable"; "a"; "b"; "d"]].
Definition deep_log : list event :=
  [Enter []; Visit [] "type" ValueExpr;
   Enter ["variable"]; Visit ["variable"] "type" TypeExpr;
   Visit ["variable"] "default" ValueExpr;
   Enter ["variable"; "a"]; Enter ["variable"; "a"; "b"];
   Enter ["variable"; "a"; "b"; "c"];
   Visit ["variable"; "a"; "b"; "c"] "type" ValueExpr;
   Enter ["variable"; "a"; "b"; "d"];
   Visit ["variable"; "a"; "b"; "d"] "type" ValueExpr].
(** A tree in which no expression has the shape that a simplifier asks
    for. *)
Definition plain : Body :=
  mkBody {[ "count" := attr_of [lit TokenNumberLit "2"] ]}
    [mkBlock "variable" ["v"]
       (mkBody {[ "type" := attr_of [tIdent "number"] ]} [] [])]
    [tNewline].
Definition plain_store : store := [["variable"]].
Definition plain_log : list event :=
  [Enter []; Visit [] "count" ValueExpr;
   Enter ["variable"]; Visit ["variable"] "type" TypeExpr].
Definition sorted_order (m : gmap string Attribute) : list string :=
  (map_to_list m).*1.
Definition doubling (c n : nat) : nat := Nat.max n (2 * c).

(** ** The counter without wrap-around *)

(** Open quotes minus close quotes, in the integers. *)
Fixpoint balance (seen : Tokens) : Z :=
  match seen with
  | [] => 0
  | token :: rest =>
      ((if is_type TokenOQuote token then 1
        else if is_type TokenCQuote token then -1 else 0)
       + balance rest)%Z
  end.

(** The attributes in the order opposite to that of [sorted_order]; a
    tree in which one expression makes [cleanValueExpr] panic. *)
Definition reverse_order (m : gmap string Attribute) : list string :=
  reverse ((map_to_list m).*1).
Definition broken : Body :=
  mkBody ∅
    [mkBlock "resource" ["r"]
       (mkBody {[ "name" := mkAttribute [] (wrapped [lit TokenNewline "n"]) [] ]}
          [] [])] [].

(** ** The driver ([main], [processItem], [processDir], [processFile])

    The operating system and the HCL parser and printer are parameters.
    What a run does to them is kept as a list of effects: every call that
    it makes with what the call gave, and every line that it prints. *)

(** [os.FileMode]: the type bits of a mode. *)
Definition ModeDir : Z := 2 ^ 31.
Definition ModeSymlink : Z := 2 ^ 27.
Definition ModeDevice : Z := 2 ^ 26.
Definition ModeNamedPipe : Z := 2 ^ 25.
Definition ModeSocket : Z := 2 ^ 24.
Definition ModeCharDevice : Z := 2 ^ 21.
Definition ModeIrregular : Z := 2 ^ 19.
Definition ModeType : Z :=
  Z.lor ModeDir (Z.lor ModeSymlink (Z.lor ModeNamedPipe (Z.lor ModeSocket
    (Z.lor ModeDevice (Z.lor ModeCharDevice ModeIrregular))))).

Definition FileMode_IsDir (m : Z) : bool := negb (Z.land m ModeDir =? 0)%Z.
Definition FileMode_IsRegular (m : Z) : bool := (Z.land m ModeType =? 0)%Z.

(** [os.FileInfo], as far as the program asks: [IsDir] is short for
    [Mode().IsDir()]. *)
Record FileInfo := mkFileInfo {
  Name : string;
  Mode : Z
}.
Definition IsDir (info : FileInfo) : bool := FileMode_IsDir (Mode info).

(** [strings.HasPrefix] and [strings.HasSuffix]. *)
Definition HasPrefix (s prefix : string) : bool :=
  (String.length prefix <=? String.length s)
  && bool_decide (String.substring 0 (String.length prefix) s = prefix).
Definition HasSuffix (s suffix : string) : bool :=
  (String.length suffix <=? String.length s)
  && bool_decide (String.substring (String.length s - String.length suffix)
                    (String.length suffix) s = suffix).

(** [hcl.Diagnostics], as far as the program reads them. *)
Inductive DiagnosticSeverity := DiagInvalid | DiagError | DiagWarning.
Record Range := mkRange {
  Filename : string;
  StartLine : Z
}.
Record Diagnostic := mkDiagnostic {
  Severity : DiagnosticSeverity;
  Summary : string;
  Detail : string;
  Subject : option Range
}.
Definition HasErrors (d : list Diagnostic) : bool :=
  existsb (λ diag, match Severity diag with DiagError => true | _ => false end) d.

(** An [error] is known by its text. *)
Definition error : Type := string.

(** The lines that the program prints, by their format. *)
Inductive message :=
  | UsageLine
  | FailedToStat (fn : string) (err : error)
  | SkippingNotRegular (fn : string)
  | FailedToReadDir (fn : string) (err : error)
  | FailedToReadFile (fn : string) (err : error)
  | DiagnosticAt (filename : string) (line : Z) (summary detail : string)
  | DiagnosticPlain (summary detail : string)
  | FailedToWrite (fn : string) (err : error)
  | PartialContentWarning (fn : string)
  | MadeChanges (fn : string).

Inductive effect :=
  | Printed (m : message)
  | CallLstat (fn : string) (result : error + FileInfo)
  | CallReadDir (fn : string) (result : error + list FileInfo)
  | CallReadFile (fn : string) (result : error + string)
  | CallWriteFile (fn : string) (data : string) (perm : Z)
      (result : option error).

(** How a call ends: it returns, it panics, [os.Exit] ends the process, or
    the model has no fuel left for the recursion. *)
Inductive status := Returned | Panicked | Exited (code : Z) | NoFuel.

Section Driver.

Variable World : Type.
Variable os_Lstat : World → string → error + FileInfo.
Variable ioutil_ReadDir : World → string → error + list FileInfo.
Variable ioutil_ReadFile : World → string → error + string.
Variable ioutil_WriteFile :
  World → string → string → Z → option error * World.
Variable filepath_Join : string → string → string.
(** [hclwrite.ParseConfig] on the bytes and the file name, and [Bytes] of
    a file. *)
Variable ParseConfig : string → string → Body * list Diagnostic.
Variable FileBytes : Body → string.
Variable range_order : gmap string Attribute → list string.
Variable growslice : nat → nat → nat.

Record driver_state := mkState {
  world : World;
  heap : store;
  trace : list effect
}.

Definition emit (e : effect) (st : driver_state) : driver_state :=
  mkState (world st) (heap st) (trace st ++ [e]).

Definition print_diagnostic (diag : Diagnostic) : message :=
  match Subject diag with
  | Some subject =>
      DiagnosticAt (Filename subject) (StartLine subject)
        (Summary diag) (Detail diag)
  | None => DiagnosticPlain (Summary diag) (Detail diag)
  end.

Definition processFile (fn : string) (mode : Z) (st : driver_state)
    : status * driver_state :=
  let read := ioutil_ReadFile (world st) fn in
  let st := emit (CallReadFile fn read) st in
  match read with
  | inl err => (Returned, emit (Printed (FailedToReadFile fn err)) st)
  | inr src =>
      let parsed := ParseConfig src fn in
      if HasErrors parsed.2 then
        (Returned,
         foldl (λ st diag, emit (Printed (print_diagnostic diag)) st)
           st parsed.2)
      else
        match cleanFile range_order growslice parsed.1 (heap st) with
        | None => (Panicked, st)
        | Some cleaned =>
            let st := mkState (world st) cleaned.1.2 (trace st) in
            let newSrc := FileBytes cleaned.1.1 in
            if decide (newSrc = src) then (Returned, st)
            else
              let written := ioutil_WriteFile (world st) fn newSrc mode in
              let st :=
                emit (CallWriteFile fn newSrc mode written.1)
                  (mkState written.2 (heap st) (trace st)) in
              match written.1 with
              | Some err =>
                  (Returned,
                   emit (Printed (PartialContentWarning fn))
                     (emit (Printed (FailedToWrite fn err)) st))
              | None => (Returned, emit (Printed (MadeChanges fn)) st)
              end
        end
  end.

(** The loop of [processDir], with the call of [processItem] as a
    parameter: a call that does not return ends the loop. *)
Definition for_entries
    (item : string → driver_state → status * driver_state) (fn : string)
    : list FileInfo → driver_state → status * driver_state :=
  fix loop (entries : list FileInfo) (st : driver_state) :=
    match entries with
    | [] => (Returned, st)
    | entry :: rest =>
        let r := item (filepath_Join fn (Name entry)) st in
        match r.1 with
        | Returned => loop rest r.2
        | _ => r
        end
    end.

Definition processDir_with
    (item : string → driver_state → status * driver_state)
    (fn : string) (st : driver_state) : status * driver_state :=
  let read := ioutil_ReadDir (world st) fn in
  let st := emit (CallReadDir fn read) st in
  match read with
  | inl err => (Returned, emit (Printed (FailedToReadDir fn err)) st)
  | inr entries => for_entries item fn entries st
  end.

(** [fuel] bounds the depth of the calls of [processItem] in one
    another. *)
Fixpoint processItem (fuel : nat) (fn : string) (st : driver_state)
    : status * driver_state :=
  match fuel with
  | 0 => (NoFuel, st)
  | S fuel' =>
      let found := os_Lstat (world st) fn in
      let st := emit (CallLstat fn found) st in
      match found with
      | inl err => (Returned, emit (Printed (FailedToStat fn err)) st)
      | inr info =>
          if IsDir info then
            if HasPrefix (Name info) "." then (Returned, st)
            else processDir_with (processItem fuel') fn st
          else
            let st :=
              if negb (FileMode_IsRegular (Mode info))
              then emit (Printed (SkippingNotRegular fn)) st
              else st in
            if negb (HasSuffix fn ".tf") then (Returned, st)
            else processFile fn (Mode info) st
      end
  end.

Definition processDir (fuel : nat) (fn : string) (st : driver_state)
    : status * driver_state :=
  processDir_with (processItem fuel) fn st.

(** The loop of [main] over the arguments. *)
Definition for_args (fuel : nat)
    : list string → driver_state → status * driver_state :=
  fix loop (args : list string) (st : driver_state) :=
    match args with
    | [] => (Returned, st)
    | arg :: rest =>
        let r := processItem fuel arg st in
        match r.1 with
        | Returned => loop rest r.2
        | _ => r
        end
    end.

(** [main], from the arguments that [flag.Args] gives. *)
Definition main (fuel : nat) (args : list string) (st : driver_state)
    : status * driver_state :=
  if decide (length args < 1) then (Exited 1, emit (Printed UsageLine) st)
  else for_args fuel args st.

End Driver.

(** *** What may come before a call *)

Section DriverOrder.

Variable ParseConfig : string → string → Body * list Diagnostic.
Variable FileBytes : Body → string.
Variable range_order : gmap string Attribute → list string.
Variable growslice : nat → nat → nat.

(** [after_stat p info skip pre]: [pre] ends with the [Lstat] of [p] that
    gave [info], followed by the line about a file that is not regular
    when [info] is of such a file. *)
Definition after_stat (p : string) (info : FileInfo) (pre : list effect)
    : Prop :=
  ∃ pre' skip,
    pre = pre' ++ CallLstat p (inr info) :: skip
    ∧ skip = (if negb (FileMode_IsRegular (Mode info))
              then [Printed (SkippingNotRegular p)] else []).

(** What the effects [pre] that come before the effect [e] have to be. *)
Definition called_in_order (pre : list effect) (e : effect) : Prop :=
  match e with
  | CallReadDir p _ =>
      ∃ pre' info,
        pre = pre' ++ [CallLstat p (inr info)]
        ∧ IsDir info = true ∧ HasPrefix (Name info) "." = false
  | CallReadFile p _ =>
      ∃ info, after_stat p info pre
        ∧ IsDir info = false ∧ HasSuffix p ".tf" = true
  | CallWriteFile p data perm _ =>
      ∃ pre' info src σ cleaned,
        pre = pre' ++ [CallReadFile p (inr src)]
        ∧ after_stat p info pre'
        ∧ HasSuffix p ".tf" = true
        ∧ perm = Mode info
        ∧ HasErrors (ParseConfig src p).2 = false
        ∧ cleanFile range_order growslice (ParseConfig src p).1 σ
          = Some cleaned
        ∧ data = FileBytes cleaned.1.1
        ∧ data ≠ src
  | _ => True
  end.

(** Every effect of [seg] has before it, in [before] and [seg], what it
    has to have. *)
Definition in_order_after (before seg : list effect) : Prop :=
  ∀ pre e post, seg = pre ++ e :: post → called_in_order (before ++ pre) e.

Definition in_order (seg : list effect) : Prop := in_order_after [] seg.

(** The effects that may come at any place. *)
Definition free (e : effect) : Prop :=
  match e with
  | Printed _ | CallLstat _ _ => True
  | _ => False
  end.

End DriverOrder.

(** *** A small world: the directory [m] with a hidden directory and two
    files *)

Definition dir_mode : Z := Z.lor ModeDir 493.
Definition file_mode : Z := 420.

Definition demo_Lstat (w : gmap string string) (fn : string)
    : error + FileInfo :=
  if decide (fn = "m") then inr (mkFileInfo "m" dir_mode)
  else if decide (fn = "m/.git") then inr (mkFileInfo ".git" dir_mode)
  else if decide (fn = "m/a.tf") then inr (mkFileInfo "a.tf" file_mode)
  else if decide (fn = "m/n.txt") then inr (mkFileInfo "n.txt" file_mode)
  else if decide (fn = "m/.git/x.tf") then inr (mkFileInfo "x.tf" file_mode)
  else inl "no such file or directory".

Definition demo_ReadDir (w : gmap string string) (fn : string)
    : error + list FileInfo :=
  if decide (fn = "m") then
    inr [mkFileInfo ".git" dir_mode; mkFileInfo "a.tf" file_mode;
         mkFileInfo "n.txt" file_mode]
  else if decide (fn = "m/.git") then inr [mkFileInfo "x.tf" file_mode]
  else inl "not a directory".

Definition demo_ReadFile (w : gmap string string) (fn : string)
    : error + string :=
  match w !! fn with
  | Some data => inr data
  | None => inl "no such file or directory"
  end.

Definition demo_WriteFile (w : gmap string string) (fn data : string)
    (perm : Z) : option error * gmap string string :=
  (None, <[fn := data]> w).

Definition demo_Join (dir name : string) : string :=
  String.append dir (String.append "/" name).

Definition demo_ParseConfig (src fn : string) : Body * list Diagnostic :=
  if decide (src = "old") then (deep, [])
  else if decide (src = "plain") then (plain, [])
  else (plain, [mkDiagnostic DiagError "Invalid expression" "" None]).

Definition demo_FileBytes (f : Body) : string :=
  match Blocks f with
  | k :: _ =>
      match Attributes (BlockBody k) !! "default" with
      | Some a => if decide (length (expr a) = 1) then "new" else "old"
      | None => "plain"
      end
  | [] => "plain"
  end.

Definition demo_world : gmap string string :=
  {[ "m/a.tf" := "old"; "m/n.txt" := "old"; "m/.git/x.tf" := "old" ]}.

Definition demo_rank (fn : string) : nat :=
  if decide (fn = "m") then 2 else if decide (fn = "m/.git") then 1 else 0.

Definition demo_trace : list effect :=
  [CallLstat "m" (inr (mkFileInfo "m" dir_mode));
   CallReadDir "m"
     (inr [mkFileInfo ".git" dir_mode; mkFileInfo "a.tf" file_mode;
           mkFileInfo "n.txt" file_mode]);
   CallLstat "m/.git" (inr (mkFileInfo ".git" dir_mode));
   CallLstat "m/a.tf" (inr (mkFileInfo "a.tf" file_mode));
   CallReadFile "m/a.tf" (inr "old");
   CallWriteFile "m/a.tf" "new" file_mode None;
   Printed (MadeChanges "m/a.tf");
   CallLstat "m/n.txt" (inr (mkFileInfo "n.txt" file_mode))].

Definition demo_start : driver_state (gmap string string) :=
  mkState (gmap string string) demo_world [] [].

Definition demo_processItem :=
  processItem (gmap string string) demo_Lstat demo_ReadDir demo_ReadFile
    demo_WriteFile demo_Join demo_ParseConfig demo_FileBytes
    sorted_order doubling.

Definition demo_main :=
  main (gmap string string) demo_Lstat demo_ReadDir demo_ReadFile
    demo_WriteFile demo_Join demo_ParseConfig demo_FileBytes
    sorted_order doubling.

Definition demo_processFile :=
  processFile (gmap string string) demo_ReadFile demo_WriteFile
    demo_ParseConfig demo_FileBytes sorted_order doubling.

(** *** The effects against the world *)

Section DriverWorld.

Variable World : Type.
Variable os_Lstat : World → string → error + FileInfo.
Variable ioutil_ReadDir : World → string → error + list FileInfo.
Variable ioutil_ReadFile : World → string → error + string.
Variable ioutil_WriteFile :
  World → string → string → Z → option error * World.

(** The world after an effect. *)
Definition replay (w : World) (e : effect) : World :=
  match e with
  | CallWriteFile fn data perm _ => (ioutil_WriteFile w fn data perm).2
  | _ => w
  end.

(** The effects are calls made one after the other from the world [w],
    each with what the operating system gave. *)
Fixpoint plays (w : World) (seg : list effect) : Prop :=
  match seg with
  | [] => True
  | e :: rest =>
      match e with
      | Printed _ => True
      | CallLstat fn r => r = os_Lstat w fn
      | CallReadDir fn r => r = ioutil_ReadDir w fn
      | CallReadFile fn r => r = ioutil_ReadFile w fn
      | CallWriteFile fn data perm r =>
          r = (ioutil_WriteFile w fn data perm).1
      end
      ∧ plays (replay w e) rest
  end.

End DriverWorld.

(** A call that went from the state [st] to the state [st']: what it added
    to the trace are calls made one after the other from the world of
    [st], and the world of [st'] is what the writes among them made of
    it. *)
Definition run_plays {World : Type}
    (os_Lstat : World → string → error + FileInfo)
    (ioutil_ReadDir : World → string → error + list FileInfo)
    (ioutil_ReadFile : World → string → error + string)
    (ioutil_WriteFile : World → string → string → Z → option error * World)
    (st st' : driver_state World) : Prop :=
  ∃ new,
    trace World st' = trace World st ++ new
    ∧ plays World os_Lstat ioutil_ReadDir ioutil_ReadFile ioutil_WriteFile
        (world World st) new
    ∧ world World st'
      = foldl (replay World ioutil_WriteFile) (world World st) new.

(** A world of one file, whose parse holds an expression on which
    [cleanValueExpr] panics. *)
Definition crash_Lstat (w : unit) (fn : string) : error + FileInfo :=
  inr (mkFileInfo fn file_mode).
Definition crash_ReadDir (w : unit) (fn : string) : error + list FileInfo :=
  inl "not a directory".
Definition crash_ReadFile (w : unit) (fn : string) : error + string :=
  inr "x".
Definition crash_WriteFile (w : unit) (fn data : string) (perm : Z)
    : option error * unit :=
  (None, w).
Definition crash_ParseConfig (src fn : string) : Body * list Diagnostic :=
  (broken, []).
Definition crash_main :=
  main unit crash_Lstat crash_ReadDir crash_ReadFile crash_WriteFile
    demo_Join crash_ParseConfig demo_FileBytes sorted_order doubling.

(** The run [r] from the state [st], if it panicked, did so in
    [cleanFile], on the parse of what it had just read. *)
Definition crashed_in_cleanFile {World : Type}
    (ParseConfig : string → string → Body * list Diagnostic)
    (range_order : gmap string Attribute → list string)
    (growslice : nat → nat → nat)
    (st : driver_state World)
    (r : status * driver_state World) : Prop :=
  r.1 = Panicked →
  ∃ pre fn src,
    trace World r.2 = trace World st ++ pre ++ [CallReadFile fn (inr src)]
    ∧ HasErrors (ParseConfig src fn).2 = false
    ∧ cleanFile range_order growslice (ParseConfig src fn).1
        (heap World r.2) = None.

(** ** trimNewlines: what the two loops compute *)

Lemma trim_start_spec (tokens : Tokens) (n start : nat) :
  start + n = length tokens →
  ∃ k, trim_start tokens n start = Some k ∧ start ≤ k ≤ length tokens ∧
    (∀ i t, start ≤ i < k → tokens !! i = Some t → is_newline t = true) ∧
    (k < length tokens → ∃ t, tokens !! k = Some t ∧ is_newline t = false).
Proof.
  revert start. induction n as [|n IH]; intros start Hlen; simpl.
  - exists start. split; [done|]. split; [lia|]. split; intros; lia.
  - destruct (lookup_lt_is_Some_2 tokens start) as [t Ht]; [lia|].
    rewrite Ht. simpl. destruct (is_newline t) eqn:Hnl; simpl.
    + destruct (IH (S start)) as (k & Hk & Hr & Hall & Hstop); [lia|].
      exists k. split; [done|]. split; [lia|]. split; [|done].
      intros i t' Hi Hi'. destruct (decide (i = start)) as [->|].
      * congruence.
      * apply (Hall i); [lia|done].
    + exists start. split; [done|]. split; [lia|]. split; [intros; lia|].
      intros _. by exists t.
Qed.

Lemma trim_end_spec (tokens : Tokens) (e : nat) :
  e ≤ length tokens →
  ∃ k, trim_end tokens e = Some k ∧ k ≤ e ∧
    (∀ i t, k ≤ i < e → tokens !! i = Some t → is_newline t = true) ∧
    (0 < k → ∃ t, tokens !! (k - 1) = Some t ∧ is_newline t = false).
Proof.
  induction e as [|e IH]; intros Hlen; simpl.
  - exists 0. split; [done|]. split; [lia|]. split; intros; lia.
  - destruct (lookup_lt_is_Some_2 tokens e) as [t Ht]; [lia|].
    rewrite Ht. simpl. destruct (is_newline t) eqn:Hnl; simpl.
    + destruct IH as (k & Hk & Hr & Hall & Hstop); [lia|].
      exists k. split; [done|]. split; [lia|]. split; [|done].
      intros i t' Hi Hi'. destruct (decide (i = e)) as [->|].
      * congruence.
      * apply (Hall i); [lia|done].
    + exists (S e). split; [done|]. split; [lia|]. split; [intros; lia|].
      intros _. exists t. by rewrite Nat.sub_1_r.
Qed.

(** The outcome of [trimNewlines], in full. *)
Lemma trimNewlines_cases (tokens : Tokens) :
  (tokens ≠ [] ∧ Forall (λ t, is_newline t = true) tokens
     ∧ trimNewlines tokens = None)
  ∨ (∃ pre r post, tokens = pre ++ r ++ post ∧ trimNewlines tokens = Some r
       ∧ Forall (λ t, is_newline t = true) pre
       ∧ Forall (λ t, is_newline t = true) post
       ∧ (tokens = [] ∨ is_Some (head r))
       ∧ (∀ t, head r = Some t → is_newline t = false)
       ∧ (∀ t, last r = Some t → is_newline t = false)).
Proof.
  unfold trimNewlines. case_decide as Hlen.
  { right. exists [], [], []. destruct tokens; [|done]. naive_solver. }
  destruct (trim_start_spec tokens (length tokens) 0) as (k1 & -> & Hk1 & Ha1 & Hs1); [done|].
  destruct (trim_end_spec tokens (length tokens)) as (k2 & -> & Hk2 & Ha2 & Hs2); [done|].
  simpl. unfold slice_expr.
  destruct (decide (k1 < length tokens)) as [Hlt|Hge].
  - right. destruct (Hs1 Hlt) as (t1 & Ht1 & Hn1).
    assert (k1 < k2) as Hlt2.
    { destruct (decide (k1 < k2)); [done|].
      rewrite (Ha2 k1 t1) in Hn1; [done|lia|done]. }
    destruct Hs2 as (t2 & Ht2 & Hn2); [lia|].
    rewrite decide_True by lia.
    exists (take k1 tokens), (take (k2 - k1) (drop k1 tokens)), (drop k2 tokens).
    split.
    { rewrite <- (take_drop k1 tokens) at 1. f_equal.
      rewrite <- (take_drop (k2 - k1) (drop k1 tokens)) at 1. f_equal.
      rewrite drop_drop. f_equal. lia. }
    split; [done|]. split.
    { apply Forall_lookup. intros i t Hi. apply lookup_take_Some in Hi as [Hi ?].
      apply (Ha1 i); [lia|done]. }
    split.
    { apply Forall_lookup. intros i t Hi. rewrite lookup_drop in Hi.
      apply (Ha2 (k2 + i)); [|done]. apply lookup_lt_Some in Hi. lia. }
    assert (head (take (k2 - k1) (drop k1 tokens)) = Some t1) as Hhead.
    { rewrite head_lookup. rewrite lookup_take_lt by lia.
      rewrite lookup_drop. by rewrite Nat.add_0_r. }
    split; [right; by rewrite Hhead|].
    split; [intros t Ht; congruence|].
    { intros t Ht. rewrite last_lookup in Ht.
      rewrite length_take, length_drop in Ht.
      replace (Init.Nat.pred ((k2 - k1) `min` (length tokens - k1))) with (k2 - k1 - 1) in Ht by lia.
      rewrite lookup_take_lt in Ht by lia. rewrite lookup_drop in Ht.
      replace (k1 + (k2 - k1 - 1)) with (k2 - 1) in Ht by lia. congruence. }
  - left. assert (k1 = length tokens) as -> by lia.
    assert (Forall (λ t, is_newline t = true) tokens) as Hall.
    { apply Forall_lookup. intros i t Hi. apply (Ha1 i); [|done].
      apply lookup_lt_Some in Hi. lia. }
    split; [by destruct tokens|]. split; [done|].
    destruct (decide (0 < k2)) as [Hpos|].
    + destruct (Hs2 Hpos) as (t2 & Ht2 & Hn2).
      rewrite (Ha1 (k2 - 1) t2) in Hn2; [done|lia|done].
    + rewrite decide_False; [done|lia].
Qed.

(** ** cleanValueExpr: the index arithmetic against the shape of the list *)

Lemma four_delimiters (t : Tokens) :
  4 ≤ length t → ∃ a b inside c d, t = a :: b :: inside ++ [c; d].
Proof.
  intros Hlen. destruct t as [|a [|b u]]; simpl in Hlen; [lia..|].
  exists a, b. induction u as [|x u IH] using rev_ind; [simpl in Hlen; lia|].
  destruct u as [|y u _] using rev_ind.
  { simpl in Hlen. lia. }
  exists u, y, x. by rewrite <- app_assoc.
Qed.

Lemma interior_wrapped (a b c d : Token) (inside : Tokens) :
  interior (a :: b :: inside ++ [c; d]) = inside.
Proof.
  unfold interior. simpl. rewrite length_app. simpl.
  replace (length inside + 2 - 2) with (length inside) by lia.
  by rewrite drop_0, take_app_length.
Qed.

Lemma value_guard_wrapped (a b c d : Token) (inside : Tokens) :
  value_guard (a :: b :: inside ++ [c; d]) =
  bool_decide (inside ≠ []) && is_type TokenOQuote a
  && is_type TokenTemplateInterp b && is_type TokenTemplateSeqEnd c
  && is_type TokenCQuote d.
Proof.
  unfold value_guard.
  assert (last (a :: b :: inside ++ [c; d]) = Some d) as ->.
  { change (a :: b :: inside ++ [c; d]) with ([a; b] ++ inside ++ [c] ++ [d]).
    by rewrite !app_assoc, last_snoc. }
  assert (rev (a :: b :: inside ++ [c; d]) !! 1 = Some c) as ->.
  { change (a :: b :: inside ++ [c; d]) with ([a; b] ++ inside ++ [c; d]).
    by rewrite !rev_app_distr. }
  simpl. f_equal. f_equal. f_equal. f_equal.
  rewrite length_app. apply bool_decide_ext.
  destruct inside; simpl; split; intros; (lia || done).
Qed.

Lemma cleanValueExpr_wrapped (a b c d : Token) (inside : Tokens) :
  inside ≠ [] →
  cleanValueExpr (a :: b :: inside ++ [c; d]) =
  if is_type TokenOQuote a && is_type TokenTemplateInterp b
     && is_type TokenTemplateSeqEnd c && is_type TokenCQuote d
  then if scan_inside inside 0 then Some (a :: b :: inside ++ [c; d])
       else trimNewlines inside
  else Some (a :: b :: inside ++ [c; d]).
Proof.
  intros Hne. unfold cleanValueExpr.
  assert (length (a :: b :: inside ++ [c; d]) = length inside + 4) as Hlen.
  { simpl. rewrite length_app. simpl. lia. }
  rewrite Hlen.
  assert (0 < length inside) as Hpos by (destruct inside; simpl; [done|lia]).
  rewrite decide_False by lia.
  replace (length inside + 4 - 2) with (S (S (length inside + 0))) by lia.
  replace (length inside + 4 - 1) with (S (S (length inside + 1))) by lia.
  change ((a :: b :: inside ++ [c; d]) !! 0) with (Some a).
  change ((a :: b :: inside ++ [c; d]) !! 1) with (Some b).
  change ((a :: b :: inside ++ [c; d]) !! S (S (length inside + 0)))
    with ((inside ++ [c; d]) !! (length inside + 0)).
  change ((a :: b :: inside ++ [c; d]) !! S (S (length inside + 1)))
    with ((inside ++ [c; d]) !! (length inside + 1)).
  rewrite !lookup_app_r by lia.
  replace (length inside + 0 - length inside) with 0 by lia.
  replace (length inside + 1 - length inside) with 1 by lia.
  simpl.
  destruct (is_type TokenOQuote a), (is_type TokenTemplateInterp b),
    (is_type TokenTemplateSeqEnd c), (is_type TokenCQuote d); simpl; try done.
  unfold slice_expr. rewrite decide_True.
  2:{ simpl. rewrite length_app. simpl. lia. }
  replace (S (S (length inside + 0)) - 2) with (length inside) by lia.
  change (drop 2 (a :: b :: inside ++ [c; d])) with (inside ++ [c; d]).
  by rewrite take_app_length.
Qed.

(** [cleanValueExpr] as a whole: guard, scan, trim. *)
Lemma cleanValueExpr_eq (t : Tokens) :
  cleanValueExpr t =
  if value_guard t
  then if scan_inside (interior t) 0 then Some t else trimNewlines (interior t)
  else Some t.
Proof.
  destruct (decide (length t < 5)) as [Hlt|Hge].
  - unfold cleanValueExpr, value_guard. rewrite decide_True by done.
    by rewrite bool_decide_eq_false_2 by lia.
  - destruct (four_delimiters t) as (a & b & inside & c & d & ->); [lia|].
    assert (inside ≠ []) as Hne.
    { intros ->. simpl in Hge. lia. }
    rewrite cleanValueExpr_wrapped, value_guard_wrapped, interior_wrapped by done.
    rewrite bool_decide_eq_true_2 by done. simpl.
    by destruct (is_type TokenOQuote a), (is_type TokenTemplateInterp b),
      (is_type TokenTemplateSeqEnd c), (is_type TokenCQuote d).
Qed.

Lemma value_guard_shape (t : Tokens) :
  value_guard t = true →
  ∃ a b c d, t = a :: b :: interior t ++ [c; d] ∧ interior t ≠ [].
Proof.
  intros Hg. assert (5 ≤ length t) as Hlen.
  { unfold value_guard in Hg. rewrite !andb_true_iff in Hg.
    destruct Hg as [[[[Hg _] _] _] _]. by apply bool_decide_eq_true in Hg. }
  destruct (four_delimiters t) as (a & b & inside & c & d & ->); [lia|].
  rewrite interior_wrapped. exists a, b, c, d. split; [done|].
  intros ->. simpl in Hlen. lia.
Qed.

(** The scan, by positions: it rejects exactly when it meets a delimiter
    of an interpolation while [quotes] is not positive. *)
Lemma scan_inside_true_iff (inside : Tokens) (q : Z) :
  scan_inside inside q = true ↔
  ∃ i tok, inside !! i = Some tok ∧ is_interp_delim tok = true
    ∧ (quotes_after (take i inside) q ≤ 0)%Z.
Proof.
  revert q. induction inside as [|x inside IH]; intros q; simpl.
  { split; [done|]. by intros (i & tok & Hi & _). }
  unfold is_interp_delim in *.
  assert (∀ q', (∃ i tok, inside !! i = Some tok
              ∧ is_type TokenTemplateInterp tok || is_type TokenTemplateSeqEnd tok = true
              ∧ (quotes_after (take i inside) q' ≤ 0)%Z)
          → quotes_after [x] q = q'
          → ∃ i tok, (x :: inside) !! i = Some tok
              ∧ is_type TokenTemplateInterp tok || is_type TokenTemplateSeqEnd tok = true
              ∧ (quotes_after (take i (x :: inside)) q ≤ 0)%Z) as Hin.
  { intros q' (i & tok & Hi & Hd & Hq) Hx. exists (S i), tok.
    split; [done|]. split; [done|]. simpl in *.
    destruct (is_type TokenOQuote x); [by subst|].
    destruct (is_type TokenCQuote x); by subst. }
  assert (∀ q', (∃ i tok, (x :: inside) !! i = Some tok
              ∧ is_type TokenTemplateInterp tok || is_type TokenTemplateSeqEnd tok = true
              ∧ (quotes_after (take i (x :: inside)) q ≤ 0)%Z)
          → quotes_after [x] q = q'
          → (is_type TokenTemplateInterp x || is_type TokenTemplateSeqEnd x = true
               ∧ (q ≤ 0)%Z)
            ∨ ∃ i tok, inside !! i = Some tok
              ∧ is_type TokenTemplateInterp tok || is_type TokenTemplateSeqEnd tok = true
              ∧ (quotes_after (take i inside) q' ≤ 0)%Z) as Hout.
  { intros q' (i & tok & Hi & Hd & Hq) Hx. destruct i as [|i].
    - left. simpl in *. by simplify_eq.
    - right. exists i, tok. split; [done|]. split; [done|]. simpl in *.
      destruct (is_type TokenOQuote x); [by subst|].
      destruct (is_type TokenCQuote x); by subst. }
  assert (is_type TokenOQuote x = true →
          is_type TokenTemplateInterp x || is_type TokenTemplateSeqEnd x = false) as Hoq.
  { unfold is_type. intros H%bool_decide_eq_true. rewrite H. done. }
  assert (is_type TokenCQuote x = true →
          is_type TokenTemplateInterp x || is_type TokenTemplateSeqEnd x = false) as Hcq.
  { unfold is_type. intros H%bool_decide_eq_true. rewrite H. done. }
  simpl in Hin, Hout.
  destruct (is_type TokenOQuote x) eqn:Eo.
  { rewrite IH. split; [intros H; by eapply Hin|].
    intros H. destruct (Hout _ H eq_refl) as [[Hd _]|]; [|done].
    rewrite Hoq in Hd; done. }
  destruct (is_type TokenCQuote x) eqn:Ec.
  { rewrite IH. split; [intros H; by eapply Hin|].
    intros H. destruct (Hout _ H eq_refl) as [[Hd _]|]; [|done].
    rewrite Hcq in Hd; done. }
  destruct (q >? 0)%Z eqn:Eq.
  { rewrite IH. split; [intros H; by eapply Hin|].
    intros H. destruct (Hout _ H eq_refl) as [[_ Hq]|]; [lia|done]. }
  destruct (is_type TokenTemplateInterp x || is_type TokenTemplateSeqEnd x) eqn:Ed.
  { split; [|done]. intros _. exists 0, x. simpl. split; [done|]. split; [done|]. lia. }
  rewrite IH. split; [intros H; by eapply Hin|].
  intros H. destruct (Hout _ H eq_refl) as [[Hd _]|]; done.
Qed.

Lemma trimNewlines_None_iff (tokens : Tokens) :
  trimNewlines tokens = None ↔
  tokens ≠ [] ∧ Forall (λ t, is_newline t = true) tokens.
Proof.
  destruct (trimNewlines_cases tokens)
    as [(Hne & Hall & Hnone)
       |(pre & r & post & Heq & Hsome & Hpre & Hpost & Hr & Hh & Hl)].
  - by rewrite Hnone.
  - rewrite Hsome. split; [done|]. intros [Hne Hall]. exfalso.
    destruct Hr as [?|[x Hx]]; [done|].
    subst tokens. apply Forall_app in Hall as [_ Hall].
    apply Forall_app in Hall as [Hall _].
    destruct r as [|y r]; simplify_eq/=.
    apply Forall_cons in Hall as [Hy _]. by rewrite (Hh x) in Hy.
Qed.

Lemma trimNewlines_length (tokens r : Tokens) :
  trimNewlines tokens = Some r → length r ≤ length tokens.
Proof.
  intros Hr. destruct (trimNewlines_cases tokens)
    as [(_ & _ & Hnone)|(pre & r' & post & Heq & Hsome & _)]; [congruence|].
  assert (r' = r) as -> by congruence. subst tokens.
  rewrite !length_app. lia.
Qed.

Lemma first_significant_trimmed (pre r post : Tokens) :
  Forall (λ t, is_newline t = true) pre →
  (∀ t, head r = Some t → is_newline t = false) →
  is_Some (head r) →
  first_significant (pre ++ r ++ post) = head r.
Proof.
  intros Hpre Hh [x Hx]. induction Hpre as [|y pre Hy _ IH]; simpl.
  - destruct r as [|z r]; simplify_eq/=. by rewrite (Hh x).
  - by rewrite Hy.
Qed.

Lemma value_guard_head (t : Tokens) :
  value_guard t = true →
  from_option (is_type TokenOQuote) false (head t) = true.
Proof.
  unfold value_guard. rewrite !andb_true_iff. by intros [[[[_ ?] _] _] _].
Qed.

Lemma cleanTypeExpr_cases (t : Tokens) :
  (type_guard t = false ∧ cleanTypeExpr t = t)
  ∨ (∃ a b c, t = [a; b; c] ∧ type_guard t = true ∧
       ((Bytes b = "string" ∧ cleanTypeExpr t = [lit TokenIdent "string"])
        ∨ (Bytes b = "list" ∧ cleanTypeExpr t =
             [lit TokenIdent "list"; lit TokenOParen "(";
              lit TokenIdent "string"; lit TokenCParen ")"])
        ∨ (Bytes b = "map" ∧ cleanTypeExpr t =
             [lit TokenIdent "map"; lit TokenOParen "(";
              lit TokenIdent "string"; lit TokenCParen ")"])
        ∨ (Bytes b ≠ "string" ∧ Bytes b ≠ "list" ∧ Bytes b ≠ "map"
             ∧ cleanTypeExpr t = t))).
Proof.
  unfold cleanTypeExpr. case_decide as Hlen.
  { left. split; [|done]. by destruct t as [|a [|b [|c [|]]]]. }
  destruct t as [|a [|b [|c [|]]]]; simplify_eq/=.
  destruct (is_type TokenOQuote a), (is_type TokenQuotedLit b),
    (is_type TokenCQuote c); simpl; try (left; done).
  right. exists a, b, c. split; [done|]. split; [done|].
  repeat case_decide; naive_solver.
Qed.

(** ** The properties of the token rewriters *)

(** C1. [trimNewlines] is not total: on a sequence that is not empty and
    holds newline tokens only, the first loop leaves [start] at the length
    and the second leaves [end] at 0, and the slice expression
    [tokens[start:end]] panics. It returns on every other input. *)
Theorem trimNewlines_panics_on_newlines :
  trimNewlines [tNewline] = None
  ∧ (∀ tokens, trimNewlines tokens = None
       ↔ tokens ≠ [] ∧ Forall (λ t, is_newline t = true) tokens)
  ∧ trimNewlines [] = Some [].
Proof.
  split; [done|]. split; [apply trimNewlines_None_iff|done].
Qed.

(** C2, as claimed, fails: the three tokens of the quoted literal [list]
    become the four tokens of [list(string)]. *)
Lemma cleanTypeExpr_list_is_longer :
  ¬ (length (cleanTypeExpr (quoted "list")) ≤ length (quoted "list")).
Proof. vm_compute. lia. Qed.

(** C2, amended. What [cleanValueExpr] returns is never longer than its
    input, and it returns unless the input passes its guard with an
    interior of newlines only. What [cleanTypeExpr] returns is never
    longer than its input, except on the quoted literals [list] and [map],
    where three tokens become four. *)
Theorem simplifiers_length (t : Tokens) :
  (∀ r, cleanValueExpr t = Some r → length r ≤ length t)
  ∧ (cleanValueExpr t = None →
     value_guard t = true
     ∧ Forall (λ k, Type_ k = TokenNewline) (interior t))
  ∧ (length (cleanTypeExpr t) ≤ length t
     ∨ (type_guard t = true
        ∧ (∃ b, t !! 1 = Some b ∧ (Bytes b = "list" ∨ Bytes b = "map"))
        ∧ length t = 3 ∧ length (cleanTypeExpr t) = 4)).
Proof.
  split; [|split].
  - intros r. rewrite cleanValueExpr_eq.
    destruct (value_guard t) eqn:Hg; [|by intros [= ->]].
    destruct (scan_inside (interior t) 0); [by intros [= ->]|].
    intros Hr%trimNewlines_length.
    destruct (value_guard_shape t Hg) as (a & b & c & d & Ht & _).
    apply (f_equal length) in Ht. simpl in Ht. rewrite length_app in Ht. lia.
  - rewrite cleanValueExpr_eq.
    destruct (value_guard t); [|done].
    destruct (scan_inside (interior t) 0); [done|].
    intros [_ Hall]%trimNewlines_None_iff. split; [done|].
    eapply Forall_impl; [exact Hall|].
    intros k Hk. by apply bool_decide_eq_true in Hk.
  - destruct (cleanTypeExpr_cases t)
      as [[_ ->]|(a & b & c & -> & Hg & [[_ ->]|[[Hb ->]|[[Hb ->]|(_ & _ & _ & ->)]]])].
    + by left.
    + left. simpl. lia.
    + right. split; [done|]. split; [|done]. exists b. by split; [|left].
    + right. split; [done|]. split; [|done]. exists b. by split; [|right].
    + by left.
Qed.

Lemma simplifiers_length_witness :
  cleanValueExpr (wrapped [tIdent "foo"]) = Some [tIdent "foo"]
  ∧ length [tIdent "foo"] ≤ length (wrapped [tIdent "foo"]).
Proof.
  split; [reflexivity|].
  apply (proj1 (simplifiers_length (wrapped [tIdent "foo"]))). reflexivity.
Defined.

(** C3, as claimed, fails: a string whose one interpolation holds a string
    with one interpolation is unwrapped once by each pass. *)
Lemma cleanValueExpr_twice_differs :
  cleanValueExpr (wrapped (wrapped [tIdent "foo"])) ≫= cleanValueExpr
  ≠ cleanValueExpr (wrapped (wrapped [tIdent "foo"])).
Proof. vm_compute. discriminate. Qed.

Lemma cleanValueExpr_fixed_iff (r : Tokens) :
  cleanValueExpr r = Some r
  ↔ value_guard r && negb (scan_inside (interior r) 0) = false.
Proof.
  rewrite cleanValueExpr_eq.
  destruct (value_guard r) eqn:Hg; simpl; [|done].
  destruct (scan_inside (interior r) 0); simpl; [done|].
  split; [|done]. intros Htrim%trimNewlines_length.
  destruct (value_guard_shape r Hg) as (a & b & c & d & Hr & _).
  apply (f_equal length) in Hr. simpl in Hr. rewrite length_app in Hr.
  simpl in Hr. lia.
Qed.

(** C3, amended. [cleanTypeExpr] is idempotent on every sequence. For
    [cleanValueExpr], when the first pass returns [r], a second pass
    returns [r] again exactly when [r] does not itself pass the guard with
    a scan that runs to its end, that is, unless [r] is again a quoted
    single interpolation. So the second pass changes nothing on every
    input that the first pass gave back as it was, and on every input
    whose interior does not have an open-quote as its first token that is
    not a newline. *)
Theorem simplifiers_idempotent (t : Tokens) :
  cleanTypeExpr (cleanTypeExpr t) = cleanTypeExpr t
  ∧ (∀ r, cleanValueExpr t = Some r →
       (cleanValueExpr r = Some r
        ↔ value_guard r && negb (scan_inside (interior r) 0) = false)
       ∧ (r = t → cleanValueExpr r = Some r)
       ∧ (from_option (is_type TokenOQuote) false
            (first_significant (interior t)) = false →
          cleanValueExpr r = Some r)).
Proof.
  split.
  - destruct (cleanTypeExpr_cases t)
      as [[_ Hu]|(a & b & c & -> & Hg & [[_ Hr]|[[_ Hr]|[[_ Hr]|(_ & _ & _ & Hr)]]])];
      by rewrite !Hr || by rewrite !Hu.
  - intros r Hrun. split; [apply cleanValueExpr_fixed_iff|].
    split; [by intros ->|].
    intros Hfirst. revert Hrun. rewrite cleanValueExpr_eq.
    destruct (value_guard t) eqn:Hg.
    2:{ intros [= <-]. by rewrite cleanValueExpr_eq, Hg. }
    destruct (scan_inside (interior t) 0) eqn:Hscan.
    { intros [= <-]. by rewrite cleanValueExpr_eq, Hg, Hscan. }
    intros Htrim.
    destruct (trimNewlines_cases (interior t))
      as [(_ & _ & Hnone)
         |(pre & r' & post & Heq & Hsome & Hpre & _ & Hr & Hh & _)];
      [congruence|].
    assert (r' = r) as -> by congruence.
    rewrite cleanValueExpr_eq.
    destruct (value_guard r) eqn:Hgr; [|done]. exfalso.
    apply value_guard_head in Hgr.
    destruct Hr as [Hnil|Hsome'].
    { destruct (value_guard_shape t Hg) as (? & ? & ? & ? & _ & ?). done. }
    rewrite Heq, (first_significant_trimmed pre r post) in Hfirst by done.
    congruence.
Qed.

Lemma simplifiers_idempotent_witness :
  cleanValueExpr (wrapped (quoted "a")) = Some (quoted "a")
  ∧ cleanValueExpr (quoted "a") = Some (quoted "a")
  ∧ cleanValueExpr [tIdent "a"; lit TokenEqualOp "=="; tOQuote;
                    lit TokenQuotedLit "x"; tCQuote]
    = Some [tIdent "a"; lit TokenEqualOp "=="; tOQuote;
            lit TokenQuotedLit "x"; tCQuote]
  ∧ cleanValueExpr (wrapped [tIdent "foo"]) = Some [tIdent "foo"]
  ∧ cleanValueExpr [tIdent "foo"] = Some [tIdent "foo"].
Proof.
  split; [reflexivity|]. split.
  { apply (proj1 (proj2 (simplifiers_idempotent (wrapped (quoted "a")))
                    (quoted "a") eq_refl)).
    reflexivity. }
  split.
  { apply (proj1 (proj2 (proj2 (simplifiers_idempotent
             [tIdent "a"; lit TokenEqualOp "=="; tOQuote;
              lit TokenQuotedLit "x"; tCQuote]) _ eq_refl)));
      reflexivity. }
  split; [reflexivity|].
  apply (proj2 (proj2 (proj2 (simplifiers_idempotent (wrapped [tIdent "foo"]))
                         [tIdent "foo"] eq_refl)));
    reflexivity.
Defined.

(** C4. On an input that passes the guard of [cleanValueExpr]: a delimiter
    of an interpolation met in the interior while [quotes] is 0 makes the
    function return its input; delimiters met while [quotes] is positive
    do not stop the scan; the early return is taken exactly when such a
    delimiter is met while [quotes] is not positive. When the scan runs to
    its end and the interior has a token that is not a newline, the result
    is the interior without the newline tokens at its two ends, which is
    not empty. When the scan runs to its end and the interior has newline
    tokens only, the function does not give the empty sequence: the call of
    [trimNewlines] panics, as on the five tokens open-quote,
    interpolation-open, newline, interpolation-close, close-quote. The two
    examples of the specification evaluate as it says. *)
Theorem cleanValueExpr_scan (t : Tokens) :
  (value_guard t = true →
     (∀ i tok, interior t !! i = Some tok → is_interp_delim tok = true →
        quotes_after (take i (interior t)) 0 = 0%Z →
        cleanValueExpr t = Some t)
     ∧ ((∀ i tok, interior t !! i = Some tok → is_interp_delim tok = true →
           (0 < quotes_after (take i (interior t)) 0)%Z) →
        scan_inside (interior t) 0 = false)
     ∧ (scan_inside (interior t) 0 = false →
        cleanValueExpr t = trimNewlines (interior t)
        ∧ (Exists (λ k, Type_ k ≠ TokenNewline) (interior t) →
           ∃ pre r post,
             cleanValueExpr t = Some r ∧ r ≠ []
             ∧ interior t = pre ++ r ++ post
             ∧ Forall (λ k, Type_ k = TokenNewline) pre
             ∧ Forall (λ k, Type_ k = TokenNewline) post
             ∧ (∀ x, head r = Some x → Type_ x ≠ TokenNewline)
             ∧ (∀ x, last r = Some x → Type_ x ≠ TokenNewline))
        ∧ (Forall (λ k, Type_ k = TokenNewline) (interior t) →
           cleanValueExpr t = None))
     ∧ (scan_inside (interior t) 0 = true ↔
        ∃ i tok, interior t !! i = Some tok ∧ is_interp_delim tok = true
          ∧ (quotes_after (take i (interior t)) 0 ≤ 0)%Z))
  ∧ cleanValueExpr (wrapped foo_of_bar) = Some foo_of_bar
  ∧ cleanValueExpr foo_then_bar = Some foo_then_bar
  ∧ (value_guard (wrapped [tNewline]) = true
     ∧ scan_inside (interior (wrapped [tNewline])) 0 = false
     ∧ cleanValueExpr (wrapped [tNewline]) = None).
Proof.
  split; [|by repeat split].
  intros Hg. rewrite cleanValueExpr_eq, Hg.
  split; [|split; [|split; [|apply scan_inside_true_iff]]].
  - intros i tok Hi Hd Hq.
    assert (scan_inside (interior t) 0 = true) as ->; [|done].
    apply scan_inside_true_iff. exists i, tok. split; [done|]. split; [done|]. lia.
  - intros Hall. destruct (scan_inside (interior t) 0) eqn:Hscan; [|done].
    apply scan_inside_true_iff in Hscan as (i & tok & Hi & Hd & Hq).
    specialize (Hall i tok Hi Hd). lia.
  - intros ->. split; [done|].
    destruct (value_guard_shape t Hg) as (_ & _ & _ & _ & _ & Hne).
    destruct (trimNewlines_cases (interior t))
      as [(_ & Hall & Hnone)
         |(pre & r & post & Heq & Hsome & Hpre & Hpost & Hnil & Hh & Hl)].
    + rewrite Hnone. split; [|done]. intros Hex. exfalso.
      apply Exists_exists in Hex as (x & Hx & Hty).
      rewrite Forall_forall in Hall. specialize (Hall x Hx).
      by apply bool_decide_eq_true in Hall.
    + rewrite Hsome. destruct Hnil as [?|[y Hy]]; [done|]. split.
      * intros _. exists pre, r, post. split; [done|].
        split; [by intros ->|]. split; [done|].
        split; [|split; [|split]].
        -- eapply Forall_impl; [exact Hpre|].
           intros k Hk. by apply bool_decide_eq_true in Hk.
        -- eapply Forall_impl; [exact Hpost|].
           intros k Hk. by apply bool_decide_eq_true in Hk.
        -- intros x Hx Hty. apply Hh in Hx.
           by apply bool_decide_eq_false in Hx.
        -- intros x Hx Hty. apply Hl in Hx.
           by apply bool_decide_eq_false in Hx.
      * intros Hall. exfalso. rewrite Heq in Hall.
        apply Forall_app in Hall as [_ Hall].
        apply Forall_app in Hall as [Hall _].
        destruct r as [|z r]; [done|]. simplify_eq/=.
        apply Forall_cons in Hall as [Hz _].
        specialize (Hh y eq_refl). by apply bool_decide_eq_false in Hh.
Qed.

Lemma cleanValueExpr_scan_witness :
  cleanValueExpr foo_then_bar = Some foo_then_bar
  ∧ (∃ pre r post,
       cleanValueExpr (wrapped [tNewline; tIdent "foo"; tNewline]) = Some r
       ∧ r ≠ []
       ∧ interior (wrapped [tNewline; tIdent "foo"; tNewline])
         = pre ++ r ++ post
       ∧ Forall (λ k, Type_ k = TokenNewline) pre
       ∧ Forall (λ k, Type_ k = TokenNewline) post
       ∧ (∀ x, head r = Some x → Type_ x ≠ TokenNewline)
       ∧ (∀ x, last r = Some x → Type_ x ≠ TokenNewline))
  ∧ cleanValueExpr (wrapped [tNewline; tNewline]) = None.
Proof.
  split; [|split].
  - apply (proj1 (proj1 (cleanValueExpr_scan foo_then_bar) eq_refl)
             1 tSeqEnd); reflexivity.
  - apply (proj1 (proj2 (proj1 (proj2 (proj2 (proj1 (cleanValueExpr_scan
             (wrapped [tNewline; tIdent "foo"; tNewline])) eq_refl)))
             eq_refl))).
    apply Exists_cons_tl, Exists_cons_hd. discriminate.
  - apply (proj2 (proj2 (proj1 (proj2 (proj2 (proj1 (cleanValueExpr_scan
             (wrapped [tNewline; tNewline])) eq_refl))) eq_refl))).
    by repeat constructor.
Defined.

(** C5. A sequence that does not have the shape that a simplifier asks for
    comes back from it as it is. *)
Theorem simplifiers_keep_other_shapes (t : Tokens) :
  (value_guard t = false → cleanValueExpr t = Some t)
  ∧ (type_guard t = false → cleanTypeExpr t = t).
Proof.
  split.
  - intros Hg. by rewrite cleanValueExpr_eq, Hg.
  - intros Hg. destruct (cleanTypeExpr_cases t) as [[_ ?]|(a & b & c & _ & Hg' & _)];
      [done|congruence].
Qed.

Lemma simplifiers_keep_other_shapes_witness :
  cleanValueExpr (quoted "list") = Some (quoted "list")
  ∧ cleanTypeExpr (wrapped [tIdent "foo"]) = wrapped [tIdent "foo"].
Proof.
  split.
  - apply (proj1 (simplifiers_keep_other_shapes (quoted "list"))). reflexivity.
  - apply (proj2 (simplifiers_keep_other_shapes (wrapped [tIdent "foo"]))).
    reflexivity.
Defined.

(** C6. On open-quote, quoted literal, close-quote, [cleanTypeExpr] goes by
    the bytes of the literal: [string] gives the identifier [string],
    [list] gives [list(string)], [map] gives [map(string)], and any other
    literal leaves the three tokens as they are. *)
Theorem cleanTypeExpr_dispatch (oQuote strTok cQuote : Token) :
  Type_ oQuote = TokenOQuote →
  Type_ strTok = TokenQuotedLit →
  Type_ cQuote = TokenCQuote →
  (Bytes strTok = "string" →
     cleanTypeExpr [oQuote; strTok; cQuote] = [tIdent "string"])
  ∧ (Bytes strTok = "list" →
     cleanTypeExpr [oQuote; strTok; cQuote]
     = [tIdent "list"; tOParen; tIdent "string"; tCParen])
  ∧ (Bytes strTok = "map" →
     cleanTypeExpr [oQuote; strTok; cQuote]
     = [tIdent "map"; tOParen; tIdent "string"; tCParen])
  ∧ (Bytes strTok ≠ "string" → Bytes strTok ≠ "list" → Bytes strTok ≠ "map" →
     cleanTypeExpr [oQuote; strTok; cQuote] = [oQuote; strTok; cQuote]).
Proof.
  intros Ho Hs Hc.
  destruct (cleanTypeExpr_cases [oQuote; strTok; cQuote])
    as [[Hg _]|(a & b & c & [= <- <- <-] & _ & Hcases)].
  { unfold type_guard, is_type in Hg.
    by rewrite !bool_decide_eq_true_2 in Hg by done. }
  unfold tIdent, tOParen, tCParen.
  repeat split; intros; destruct Hcases as [[? ?]|[[? ?]|[[? ?]|(? & ? & ? & ?)]]];
    congruence.
Qed.

Lemma cleanTypeExpr_dispatch_witness :
  cleanTypeExpr (quoted "map")
  = [tIdent "map"; tOParen; tIdent "string"; tCParen]
  ∧ cleanTypeExpr (quoted "number") = quoted "number".
Proof.
  split.
  - apply (cleanTypeExpr_dispatch tOQuote (lit TokenQuotedLit "map") tCQuote);
      reflexivity.
  - apply (cleanTypeExpr_dispatch tOQuote (lit TokenQuotedLit "number") tCQuote);
      (reflexivity || discriminate).
Defined.

(** C10. When [cleanValueExpr] returns something other than its input, the
    input is two tokens, then newlines, then the result, then newlines,
    then two tokens: the result is a run of the interior, in place and in
    order, and only newline tokens of the interior are left out. *)
Theorem cleanValueExpr_result_in_interior (t r : Tokens) :
  cleanValueExpr t = Some r → r ≠ t →
  ∃ a b c d pre post,
    t = a :: b :: (pre ++ r ++ post) ++ [c; d]
    ∧ interior t = pre ++ r ++ post
    ∧ Forall (λ k, Type_ k = TokenNewline) pre
    ∧ Forall (λ k, Type_ k = TokenNewline) post.
Proof.
  rewrite cleanValueExpr_eq. intros Hr Hne.
  destruct (value_guard t) eqn:Hg; [|congruence].
  destruct (scan_inside (interior t) 0); [congruence|].
  destruct (trimNewlines_cases (interior t))
    as [(_ & _ & Hnone)|(pre & r' & post & Heq & Hsome & Hpre & Hpost & _)];
    [congruence|].
  assert (r' = r) as -> by congruence.
  destruct (value_guard_shape t Hg) as (a & b & c & d & Ht & _).
  exists a, b, c, d, pre, post. rewrite <- Heq. split; [done|]. split; [done|].
  split; (eapply Forall_impl; [eassumption|]);
    intros k Hk; by apply bool_decide_eq_true in Hk.
Qed.

Lemma cleanValueExpr_result_in_interior_witness :
  ∃ a b c d pre post,
    wrapped [tNewline; tIdent "foo"; tNewline]
    = a :: b :: (pre ++ [tIdent "foo"] ++ post) ++ [c; d]
    ∧ interior (wrapped [tNewline; tIdent "foo"; tNewline])
      = pre ++ [tIdent "foo"] ++ post
    ∧ Forall (λ k, Type_ k = TokenNewline) pre
    ∧ Forall (λ k, Type_ k = TokenNewline) post.
Proof.
  apply cleanValueExpr_result_in_interior; [reflexivity|discriminate].
Defined.

(** ** The walker: slices and their store *)

Lemma Body_induction (P : Body → Prop) :
  (∀ attrs blocks trivia,
     Forall (λ k, P (BlockBody k)) blocks → P (mkBody attrs blocks trivia)) →
  ∀ b, P b.
Proof.
  intros H. fix IH 1. intros [attrs blocks trivia]. apply H.
  induction blocks as [|[ty ls sub] blocks IHb]; constructor;
    [apply IH|apply IHb].
Qed.

Lemma contents_length (σ : store) (s : slice) :
  slice_ok σ s → length (contents σ s) = len s.
Proof.
  intros [Hle Harr]. unfold contents. rewrite length_take.
  destruct (decide (0 < cap s)) as [Hpos|]; [|lia].
  destruct (Harr Hpos) as (a & -> & Ha). simpl. lia.
Qed.

Lemma route_chosen_by (σ : store) (s : slice) (name : string) :
  slice_ok σ s → route σ s name = Some (chosen_by (contents σ s) name).
Proof.
  intros Hok. pose proof (contents_length σ s Hok) as Hlen.
  unfold route, chosen_by. case_decide as H1.
  - destruct Hok as [Hle Harr].
    assert (0 < cap s) as Hpos by lia.
    destruct (Harr Hpos) as (a & Ha & Hcap).
    unfold index. rewrite (decide_True (P := 0 < len s)) by lia.
    rewrite Ha. simpl.
    unfold contents in *. rewrite Ha in *. simpl in *. rewrite H1 in *.
    destruct a as [|x a]; simpl in *; [lia|].
    rewrite take_0.
    repeat case_decide; simplify_eq; try done; exfalso;
      repeat match goal with
             | H : ¬ (_ ∧ _) |- _ => apply H; by split
             | H : _ ∧ _ |- _ => destruct H as [? ?]; simplify_eq
             end.
  - rewrite decide_False; [done|]. intros [Hc _]. rewrite Hc in Hlen.
    simpl in Hlen. lia.
Qed.

Lemma keeps_refl (s : slice) (σ : store) : keeps s σ σ.
Proof. intros b a Hb. by exists a. Qed.

Lemma keeps_trans (s : slice) (σ1 σ2 σ3 : store) :
  keeps s σ1 σ2 → keeps s σ2 σ3 → keeps s σ1 σ3.
Proof.
  intros H12 H23 b a Hb.
  destruct (H12 b a Hb) as (a2 & Hb2 & Hl2 & Hne2 & Ht2).
  destruct (H23 b a2 Hb2) as (a3 & Hb3 & Hl3 & Hne3 & Ht3).
  exists a3. split; [done|]. split; [congruence|].
  split; [|congruence]. intros Hne. by rewrite Hne3, Hne2.
Qed.

Lemma keeps_slice (s : slice) (σ σ' : store) :
  slice_ok σ s → keeps s σ σ' →
  slice_ok σ' s ∧ contents σ' s = contents σ s.
Proof.
  intros [Hle Harr] Hk. destruct (decide (0 < cap s)) as [Hpos|Hz].
  - destruct (Harr Hpos) as (a & Ha & Hcap).
    destruct (Hk _ _ Ha) as (a' & Ha' & Hl & _ & Ht).
    split.
    + split; [done|]. intros _. exists a'. split; [done|lia].
    + unfold contents. by rewrite Ha, Ha'.
  - split.
    + split; [done|]. intros ?. lia.
    + unfold contents. by replace (len s) with 0 by lia.
Qed.

Section WalkerSlices.

Variable growslice : nat → nat → nat.
Hypothesis growslice_fits : ∀ c n, n ≤ growslice c n.

(** [append] gives a slice that holds the old elements and then the new
    one, and leaves what the old slice shows as it was. *)
Lemma append_spec (σ : store) (s : slice) (v : string) :
  slice_ok σ s →
  slice_ok (append growslice σ s v).2 (append growslice σ s v).1
  ∧ contents (append growslice σ s v).2 (append growslice σ s v).1
    = contents σ s ++ [v]
  ∧ keeps s σ (append growslice σ s v).2.
Proof.
  intros Hok. pose proof (contents_length σ s Hok) as Hlen.
  destruct Hok as [Hle Harr]. unfold append, slice_ok, contents.
  case_decide as Hroom; cbn [fst snd base len cap].
  - assert (0 < cap s) as Hpos by lia.
    destruct (Harr Hpos) as (a & Ha & Hcap).
    rewrite list_lookup_alter_eq, Ha. cbn [fmap option_fmap option_map default].
    split; [|split].
    + split; [lia|]. intros _. exists (<[len s := v]> a).
      split; [done|]. by rewrite length_insert.
    + assert (<[len s := v]> a !! len s = Some v) as Hv
        by (apply list_lookup_insert_eq; lia).
      unfold id. rewrite (take_S_r _ _ _ Hv). by rewrite take_insert_ge by lia.
    + intros b x Hb. destruct (decide (b = base s)) as [->|Hne].
      * exists (<[len s := v]> a). rewrite list_lookup_alter_eq, Ha.
        assert (x = a) as -> by congruence.
        split; [done|]. split; [by rewrite length_insert|].
        split; [done|]. by rewrite take_insert_ge by lia.
      * exists x. by rewrite list_lookup_alter_ne by done.
  - pose proof (growslice_fits (cap s) (S (len s))) as Hfit.
    rewrite lookup_app_r by lia. rewrite Nat.sub_diag.
    cbn [lookup list_lookup default].
    split; [|split].
    + split; [lia|]. intros _.
      eexists. split; [done|].
      rewrite length_app. simpl. rewrite length_replicate.
      fold (contents σ s). lia.
    + fold (contents σ s). unfold id.
      rewrite take_app_ge by lia. rewrite Hlen.
      replace (S (len s) - len s) with 1 by lia. done.
    + intros b x Hb. exists x. rewrite lookup_app_l; [done|].
      by eapply lookup_lt_Some.
Qed.

(** What a callee keeps for the slice that [append] gave, the caller keeps
    for the slice it appended to. *)
Lemma append_keeps_child (σ σ2 : store) (s : slice) (v : string) :
  slice_ok σ s →
  keeps (append growslice σ s v).1 (append growslice σ s v).2 σ2 →
  keeps s σ σ2.
Proof.
  intros Hok Hk b x Hb.
  destruct (append_spec σ s v Hok) as (_ & _ & Hap).
  destruct (Hap b x Hb) as (a1 & Hb1 & Hl1 & Hne1 & Ht1).
  destruct (Hk b a1 Hb1) as (a2 & Hb2 & Hl2 & Hne2 & Ht2).
  exists a2. split; [done|]. split; [congruence|].
  revert Hne2 Ht2 Hb1. unfold append. case_decide as Hroom; simpl.
  - intros Hne2 Ht2 Hb1. split.
    + intros Hne. by rewrite Hne2, Hne1.
    + rewrite <- Ht1.
      apply (f_equal (take (len s))) in Ht2.
      by rewrite !take_take, !Nat.min_l in Ht2 by lia.
  - intros Hne2 Ht2 Hb1.
    assert (b < length σ) as Hlt by by eapply lookup_lt_Some.
    rewrite lookup_app_l in Hb1 by done.
    assert (a1 = x) as -> by congruence.
    rewrite Hne2 by lia. done.
Qed.

End WalkerSlices.

(** ** The walker on slices does what the walk on lists does *)

Section WalkerFacts.

Variable range_order : gmap string Attribute → list string.
Hypothesis range_order_perm :
  ∀ m, range_order m ≡ₚ (map_to_list m).*1.
Variable growslice : nat → nat → nat.
Hypothesis growslice_fits : ∀ c n, n ≤ growslice c n.

Lemma clean_attrs_ext (chosen chosen' : string → option simplifier)
    (ctx : list string) (names : list string)
    (st : gmap string Attribute * list event) :
  (∀ name, chosen name = chosen' name) →
  clean_attrs chosen ctx names st = clean_attrs chosen' ctx names st.
Proof.
  intros Hext. revert st. induction names as [|name names IH]; intros st; [done|].
  simpl. unfold clean_attr. rewrite Hext.
  destruct (chosen' name) as [which|]; simpl; [|done].
  destruct (st.1 !! name) as [a|]; simpl; [|done].
  destruct (simplify which (expr a)) as [cleaned|]; simpl; [|done].
  apply IH.
Qed.

Lemma for_blocks_refines (s : slice) (blocks : list Block) :
  Forall (λ k, ∀ s' σ', slice_ok σ' s' →
            refines s' σ' (cleanBody range_order growslice (BlockBody k) s' σ')
              (walk range_order (BlockBody k) (contents σ' s'))) blocks →
  ∀ σ, slice_ok σ s →
    refines s σ
      (for_blocks growslice (cleanBody range_order growslice) s blocks σ)
      (walk_blocks (walk range_order) (contents σ s) blocks).
Proof.
  induction 1 as [|[ty ls sub] blocks Hsub _ IH]; intros σ Hok; simpl.
  { split; [done|apply keeps_refl]. }
  destruct (append_spec growslice growslice_fits σ s ty Hok)
    as (Hok1 & Hc1 & Hk1).
  specialize (Hsub _ _ Hok1). simpl in Hsub. rewrite Hc1 in Hsub.
  destruct (cleanBody range_order growslice sub _ _) as [[[b1 σ1] l1]|];
    simpl in *; [|by rewrite Hsub].
  destruct Hsub as [-> Hkeep1]. simpl.
  apply (append_keeps_child growslice growslice_fits) in Hkeep1; [|done].
  destruct (keeps_slice _ _ _ Hok Hkeep1) as [Hokσ1 Hcσ1].
  specialize (IH σ1 Hokσ1). rewrite Hcσ1 in IH.
  destruct (for_blocks growslice _ s blocks σ1) as [[[bs σ2] l2]|];
    simpl in *; [|by rewrite IH].
  destruct IH as [-> Hkeep2]. simpl. split; [done|].
  exact (keeps_trans _ _ _ _ Hkeep1 Hkeep2).
Qed.

Lemma cleanBody_refines (body : Body) :
  ∀ s σ, slice_ok σ s →
    refines s σ (cleanBody range_order growslice body s σ)
      (walk range_order body (contents σ s)).
Proof.
  induction body as [attrs blocks trivia IH] using Body_induction.
  intros s σ Hok. simpl.
  rewrite (clean_attrs_ext (route σ s)
             (λ name, Some (chosen_by (contents σ s) name)))
    by (intros name; by apply route_chosen_by).
  destruct (clean_attrs _ _ _ _) as [st|]; simpl; [|done].
  pose proof (for_blocks_refines s blocks IH σ Hok) as Hblocks.
  destruct (for_blocks growslice _ s blocks σ) as [[[bs σ2] l2]|];
    simpl in *; [|by rewrite Hblocks].
  destruct Hblocks as [-> Hkeep]. by simpl.
Qed.

(** *** The loop over the attributes *)

Lemma SetAttributeRaw_lookup (name n : string) (tokens : Tokens)
    (m : gmap string Attribute) (a : Attribute) :
  m !! name = Some a →
  SetAttributeRaw name tokens m !! n =
  if decide (n = name)
  then Some (mkAttribute (leadComments a) tokens (lineComments a))
  else m !! n.
Proof.
  intros Ha. unfold SetAttributeRaw. rewrite Ha. case_decide as Hn.
  - subst. apply lookup_insert_eq.
  - by apply lookup_insert_ne.
Qed.

Lemma clean_attrs_spec (f : string → simplifier) (ctx : list string)
    (names : list string) :
  NoDup names →
  ∀ (m : gmap string Attribute) (log : list event),
  (∀ n, n ∈ names → is_Some (m !! n)) →
  match clean_attrs (λ n, Some (f n)) ctx names (m, log) with
  | Some st =>
      st.2 = log ++ ((λ n, Visit ctx n (f n)) <$> names)
      ∧ (∀ n a, m !! n = Some a → n ∈ names →
           ∃ a', cleaned_attr (f n) a = Some a' ∧ st.1 !! n = Some a')
      ∧ (∀ n, n ∉ names → st.1 !! n = m !! n)
  | None =>
      ∃ n a, n ∈ names ∧ m !! n = Some a ∧ simplify (f n) (expr a) = None
  end.
Proof.
  induction 1 as [|name names Hnotin Hnd IH]; intros m log Hdom; simpl.
  { split; [by rewrite app_nil_r|]. split; [|done].
    intros n a _ Hn. by apply elem_of_nil in Hn. }
  unfold clean_attr. simpl.
  destruct (Hdom name) as [a Ha]; [by left|]. rewrite Ha. simpl.
  destruct (simplify (f name) (expr a)) as [cleaned|] eqn:Hs; simpl.
  2:{ exists name, a. split; [by left|]. done. }
  pose proof (SetAttributeRaw_lookup name) as Hset.
  specialize (IH (SetAttributeRaw name cleaned m) (log ++ [Visit ctx name (f name)])).
  destruct (clean_attrs _ ctx names _) as [st|].
  - destruct IH as (Hlog & Hin & Hout).
    { intros n Hn. rewrite (Hset n cleaned m a Ha).
      case_decide; [done|]. apply Hdom. by right. }
    split; [by rewrite Hlog, <- app_assoc|]. split.
    + intros n a0 Hn0 [->|Hn]%elem_of_cons.
      * assert (a0 = a) as -> by congruence.
        exists (mkAttribute (leadComments a) cleaned (lineComments a)).
        unfold cleaned_attr. rewrite Hs. split; [done|].
        rewrite (Hout name Hnotin), (Hset name cleaned m a Ha).
        by rewrite decide_True.
      * apply Hin; [|done]. rewrite (Hset n cleaned m a Ha).
        rewrite decide_False; [done|]. by intros ->.
    + intros n Hn. rewrite not_elem_of_cons in Hn. destruct Hn as [Hne Hn].
      rewrite (Hout n Hn), (Hset n cleaned m a Ha). by rewrite decide_False.
  - destruct IH as (n & a0 & Hn & Hn0 & Hnone).
    { intros n Hn. rewrite (Hset n cleaned m a Ha).
      case_decide; [done|]. apply Hdom. by right. }
    exists n, a0. split; [by right|]. split; [|done].
    rewrite (Hset n cleaned m a Ha) in Hn0.
    rewrite decide_False in Hn0; [done|]. by intros ->.
Qed.

Lemma range_order_NoDup (m : gmap string Attribute) : NoDup (range_order m).
Proof.
  rewrite (range_order_perm m). apply NoDup_fst_map_to_list.
Qed.

Lemma range_order_elem (m : gmap string Attribute) (n : string) :
  n ∈ range_order m ↔ is_Some (m !! n).
Proof.
  rewrite (range_order_perm m). rewrite list_elem_of_fmap. split.
  - intros [[n' a] [-> Hin]]. apply elem_of_map_to_list in Hin. by exists a.
  - intros [a Ha]. exists (n, a). split; [done|]. by apply elem_of_map_to_list.
Qed.

(** *** The walk on lists, step by step *)

Lemma walk_inv (attrs : gmap string Attribute) (blocks : list Block)
    (trivia : Tokens) (ctx : list string) (r : Body * list event) :
  walk range_order (mkBody attrs blocks trivia) ctx = Some r →
  ∃ attrs' rb,
    r = (mkBody attrs' rb.1 trivia,
         (Enter ctx :: ((λ n, Visit ctx n (chosen_by ctx n)) <$> range_order attrs))
         ++ rb.2)
    ∧ walk_blocks (walk range_order) ctx blocks = Some rb
    ∧ (∀ n a, attrs !! n = Some a →
         ∃ a', cleaned_attr (chosen_by ctx n) a = Some a' ∧ attrs' !! n = Some a')
    ∧ (∀ n, attrs !! n = None → attrs' !! n = None).
Proof.
  simpl. intros Hw.
  pose proof (clean_attrs_spec (chosen_by ctx) ctx (range_order attrs)
                (range_order_NoDup attrs) attrs [Enter ctx]) as Hspec.
  destruct (clean_attrs _ ctx (range_order attrs) _) as [st|]; simpl in Hw; [|done].
  destruct (walk_blocks _ ctx blocks) as [rb|]; simpl in Hw; [|done].
  destruct Hspec as (Hlog & Hin & Hout).
  { intros n Hn. by apply range_order_elem. }
  exists st.1, rb. split; [|split; [done|split]].
  - simplify_eq. by rewrite Hlog.
  - intros n a Ha. apply Hin; [done|]. apply range_order_elem. by exists a.
  - intros n Hn. rewrite Hout; [done|]. rewrite range_order_elem, Hn.
    by intros [? ?].
Qed.

Lemma walk_blocks_inv (ctx : list string) (blocks : list Block)
    (rb : list Block * list event) :
  walk_blocks (walk range_order) ctx blocks = Some rb →
  Forall2 (λ k k',
    BlockType k' = BlockType k ∧ BlockLabels k' = BlockLabels k ∧
    ∃ lk pre post,
      walk range_order (BlockBody k) (ctx ++ [BlockType k])
        = Some (BlockBody k', lk)
      ∧ rb.2 = pre ++ lk ++ post) blocks rb.1.
Proof.
  revert rb. induction blocks as [|[ty ls sub] blocks IH]; intros rb; simpl.
  { intros [= <-]. constructor. }
  destruct (walk range_order sub (ctx ++ [ty])) as [[b1 l1]|] eqn:Hsub;
    simpl; [|done].
  destruct (walk_blocks _ ctx blocks) as [[bs l2]|]; simpl; [|done].
  intros [= <-]. simpl. constructor.
  - split; [done|]. split; [done|]. exists l1, [], l2. by split.
  - specialize (IH _ eq_refl). simpl in IH.
    eapply Forall2_impl; [exact IH|].
    intros k k' (Hty & Hls & lk & pre & post & Hw & ->).
    split; [done|]. split; [done|]. exists lk, (l1 ++ pre), post.
    split; [done|]. by rewrite <- !app_assoc.
Qed.

(** The sub-run at a place of the tree is the walk of the body there with
    the context of that place; its log is a segment of the whole log. *)
Lemma walk_at (path : list nat) :
  ∀ (body : Body) (ctx : list string) (r : Body * list event),
  walk range_order body ctx = Some r →
  ∀ sub c, body_at body path = Some sub →
    context_at body ctx path = Some c →
    ∃ sub' l pre post,
      walk range_order sub c = Some (sub', l)
      ∧ body_at r.1 path = Some sub' ∧ r.2 = pre ++ l ++ post.
Proof.
  induction path as [|i path IH]; intros body ctx r Hw sub c; simpl.
  { intros [= <-] [= <-]. exists r.1, r.2, [], []. destruct r.
    by rewrite app_nil_r. }
  destruct body as [attrs blocks trivia]. simpl.
  destruct (blocks !! i) as [k|] eqn:Hk; simpl; [|done].
  intros Hsub Hc.
  apply walk_inv in Hw as (attrs' & rb & -> & Hwb & _).
  apply walk_blocks_inv in Hwb.
  destruct (Forall2_lookup_l _ _ _ _ _ Hwb Hk)
    as (k' & Hk' & _ & _ & lk & pre & post & Hwk & Hlog).
  destruct (IH _ _ _ Hwk sub c Hsub Hc) as (sub' & l & pre' & post' & Hws & Hat & Hl).
  simpl in *. exists sub', l. rewrite Hk'. simpl.
  exists (Enter ctx
          :: ((λ n, Visit ctx n (chosen_by ctx n)) <$> range_order attrs)
          ++ pre ++ pre'), (post' ++ post).
  split; [done|]. split; [done|].
  rewrite Hlog, Hl. simpl. f_equal. by rewrite <- !app_assoc.
Qed.

Lemma walk_routed (body : Body) :
  ∀ ctx r, walk range_order body ctx = Some r → Forall routed r.2.
Proof.
  induction body as [attrs blocks trivia IH] using Body_induction.
  intros ctx r Hw. apply walk_inv in Hw as (attrs' & rb & -> & Hwb & _).
  simpl. constructor; [done|]. apply Forall_app. split.
  { apply Forall_fmap. by apply Forall_true. }
  clear attrs attrs'. revert rb Hwb.
  induction IH as [|[ty ls sub] blocks Hsub _ IHb]; intros rb; simpl.
  { by intros [= <-]. }
  destruct (walk range_order sub (ctx ++ [ty])) as [[b1 l1]|] eqn:Hw1;
    simpl; [|done].
  destruct (walk_blocks _ ctx blocks) as [[bs l2]|]; simpl; [|done].
  intros [= <-]. simpl. apply Forall_app. split.
  - apply (Hsub _ _ Hw1).
  - apply (IHb _ eq_refl).
Qed.

Lemma walk_erase (body : Body) :
  ∀ ctx r, walk range_order body ctx = Some r → erase r.1 = erase body.
Proof.
  induction body as [attrs blocks trivia IH] using Body_induction.
  intros ctx r Hw. apply walk_inv in Hw as (attrs' & rb & -> & Hwb & Hin & Hout).
  simpl. f_equal.
  - apply map_eq. intros n. rewrite !lookup_fmap.
    destruct (attrs !! n) as [a|] eqn:Ha.
    + destruct (Hin n a Ha) as (a' & Hcl & ->). simpl.
      unfold cleaned_attr in Hcl.
      destruct (simplify _ (expr a)); by simplify_eq/=.
    + by rewrite (Hout n Ha).
  - clear Hin Hout. revert rb Hwb.
    induction IH as [|[ty ls sub] blocks Hsub _ IHb]; intros rb; simpl.
    { by intros [= <-]. }
    destruct (walk range_order sub (ctx ++ [ty])) as [[b1 l1]|] eqn:Hw1;
      simpl; [|done].
    destruct (walk_blocks _ ctx blocks) as [[bs l2]|]; simpl; [|done].
    intros [= <-]. simpl. f_equal.
    + f_equal. apply (Hsub _ _ Hw1).
    + apply (IHb _ eq_refl).
Qed.

Lemma simplify_unmatched (which : simplifier) (t : Tokens) :
  value_guard t = false → type_guard t = false → simplify which t = Some t.
Proof.
  intros Hv Ht. destruct which; simpl.
  - destruct (cleanTypeExpr_cases t) as [[_ ->]|(a & b & c & _ & Hg & _)];
      [done|congruence].
  - by rewrite cleanValueExpr_eq, Hv.
Qed.

Lemma walk_unmatched (body : Body) :
  ∀ ctx, unmatched body = true →
    ∃ log, walk range_order body ctx = Some (body, log).
Proof.
  induction body as [attrs blocks trivia IH] using Body_induction.
  intros ctx Hu. simpl in Hu. apply andb_true_iff in Hu as [Hattrs Hblocks].
  rewrite forallb_forall in Hattrs.
  assert (∀ n a, attrs !! n = Some a →
            value_guard (expr a) = false ∧ type_guard (expr a) = false) as Hg.
  { intros n a Ha. specialize (Hattrs (n, a)). simpl in Hattrs.
    rewrite andb_true_iff, !negb_true_iff in Hattrs. apply Hattrs.
    apply list_elem_of_In. by apply elem_of_map_to_list. }
  simpl.
  pose proof (clean_attrs_spec (chosen_by ctx) ctx (range_order attrs)
                (range_order_NoDup attrs) attrs [Enter ctx]) as Hspec.
  destruct (clean_attrs _ ctx (range_order attrs) _) as [st|]; simpl.
  2:{ destruct Hspec as (n & a & _ & Ha & Hnone).
      { intros n Hn. by apply range_order_elem. }
      destruct (Hg n a Ha) as [Hv Ht].
      by rewrite simplify_unmatched in Hnone. }
  destruct Hspec as (_ & Hin & Hout).
  { intros n Hn. by apply range_order_elem. }
  assert (st.1 = attrs) as ->.
  { apply map_eq. intros n. destruct (attrs !! n) as [a|] eqn:Ha.
    - destruct (Hin n a Ha) as (a' & Hcl & ->).
      { apply range_order_elem. by exists a. }
      destruct (Hg n a Ha) as [Hv Ht]. unfold cleaned_attr in Hcl.
      rewrite simplify_unmatched in Hcl by done. simpl in Hcl.
      destruct a. by simplify_eq/=.
    - rewrite Hout; [done|]. rewrite range_order_elem, Ha. by intros [? ?]. }
  assert (∃ l, walk_blocks (walk range_order) ctx blocks = Some (blocks, l))
    as [l ->]; [|by eexists].
  clear Hattrs Hg Hin Hout.
  induction IH as [|[ty ls sub] blocks Hsub _ IHb]; simpl in *; [by eexists|].
  apply andb_true_iff in Hblocks as [Hs Hrest].
  destruct (Hsub (ctx ++ [ty]) Hs) as [l1 ->].
  destruct (IHb Hrest) as [l2 ->]. simpl. by eexists.
Qed.

Lemma walk_None (body : Body) :
  ∀ ctx, walk range_order body ctx = None →
    ∃ path sub name a, body_at body path = Some sub
      ∧ Attributes sub !! name = Some a ∧ cleanValueExpr (expr a) = None.
Proof.
  induction body as [attrs blocks trivia IH] using Body_induction.
  intros ctx. simpl.
  pose proof (clean_attrs_spec (chosen_by ctx) ctx (range_order attrs)
                (range_order_NoDup attrs) attrs [Enter ctx]) as Hspec.
  destruct (clean_attrs _ ctx (range_order attrs) _) as [st|]; simpl.
  2:{ intros _. destruct Hspec as (n & a & _ & Ha & Hnone).
      { intros n Hn. by apply range_order_elem. }
      exists [], (mkBody attrs blocks trivia), n, a.
      split; [done|]. split; [done|]. by destruct (chosen_by ctx n). }
  clear Hspec.
  assert (walk_blocks (walk range_order) ctx blocks = None →
          ∃ i k path sub name a, blocks !! i = Some k
            ∧ body_at (BlockBody k) path = Some sub
            ∧ Attributes sub !! name = Some a
            ∧ cleanValueExpr (expr a) = None) as Hblocks.
  { clear st. induction IH as [|[ty ls sub] blocks Hsub _ IHb]; simpl; [done|].
    destruct (walk range_order sub (ctx ++ [ty])) as [[b1 l1]|] eqn:Hw1; simpl.
    - destruct (walk_blocks _ ctx blocks) as [[bs l2]|]; simpl; [done|].
      intros _. destruct (IHb eq_refl) as (i & k & Hrest).
      by exists (S i), k.
    - intros _. destruct (Hsub _ Hw1) as (path & sub' & name & a & Hrest).
      by exists 0, (mkBlock ty ls sub), path, sub', name, a. }
  destruct (walk_blocks _ ctx blocks) as [rb|]; simpl; [done|].
  intros _. destruct (Hblocks eq_refl) as (i & k & path & sub & name & a & Hk & Hrest).
  exists (i :: path), sub, name, a. simpl. by rewrite Hk.
Qed.

End WalkerFacts.

Lemma sorted_order_perm (m : gmap string Attribute) :
  sorted_order m ≡ₚ (map_to_list m).*1.
Proof. done. Qed.

Lemma doubling_fits (c n : nat) : n ≤ doubling c n.
Proof. unfold doubling. lia. Qed.

Lemma nil_slice_ok (σ : store) : slice_ok σ nil_slice.
Proof. split; simpl; [done|lia]. Qed.

Lemma deep_run :
  cleanBody sorted_order doubling deep nil_slice []
  = Some (deep_cleaned, deep_store, deep_log).
Proof. vm_compute. reflexivity. Qed.

(** ** The properties of the walker *)

Section WalkerProperties.

Variable range_order : gmap string Attribute → list string.
Hypothesis range_order_perm :
  ∀ m, range_order m ≡ₚ (map_to_list m).*1.
Variable growslice : nat → nat → nat.
Hypothesis growslice_fits : ∀ c n, n ≤ growslice c n.

(** C7. In a run of [cleanBody] that returns, every attribute visited gets
    the type simplifier exactly when the context at its place is the one
    entry [variable] and its name is [type], and the value simplifier
    otherwise: the log says so for every visit, and at every place of the
    tree the attribute holds afterwards what that simplifier gives,
    between the comments it had. *)
Theorem cleanBody_routes (body : Body) (s : slice) (σ : store)
    (r : Body * store * list event) :
  slice_ok σ s →
  cleanBody range_order growslice body s σ = Some r →
  (∀ c name which, Visit c name which ∈ r.2 →
     (which = TypeExpr ↔ c = ["variable"] ∧ name = "type"))
  ∧ (∀ path sub c name a,
       body_at body path = Some sub →
       context_at body (contents σ s) path = Some c →
       Attributes sub !! name = Some a →
       ∃ sub' cleaned,
         body_at r.1.1 path = Some sub'
         ∧ Attributes sub' !! name
           = Some (mkAttribute (leadComments a) cleaned (lineComments a))
         ∧ Visit c name (chosen_by c name) ∈ r.2
         ∧ if decide (c = ["variable"] ∧ name = "type")
           then cleaned = cleanTypeExpr (expr a)
           else cleanValueExpr (expr a) = Some cleaned).
Proof.
  intros Hok Hrun.
  pose proof (cleanBody_refines range_order growslice growslice_fits
                body s σ Hok) as Href.
  rewrite Hrun in Href. destruct Href as [Hw _]. split.
  - intros c name which Hin.
    pose proof (walk_routed range_order range_order_perm _ _ _ Hw) as Hr.
    rewrite Forall_forall in Hr. specialize (Hr _ Hin). simpl in Hr.
    subst which. unfold chosen_by. case_decide; [done|]. split; [done|].
    by intros ?.
  - intros path sub c name a Hsub Hc Ha.
    destruct (walk_at range_order range_order_perm path _ _ _ Hw sub c Hsub Hc)
      as (sub' & l & pre & post & Hws & Hat & Hlog).
    simpl in Hat, Hlog. destruct sub as [attrs blocks trivia]. simpl in Ha.
    apply (walk_inv range_order range_order_perm) in Hws
      as (attrs' & rb & [= -> ->] & _ & Hin & _).
    destruct (Hin name a Ha) as (a' & Hcl & Ha').
    unfold cleaned_attr in Hcl.
    destruct (simplify (chosen_by c name) (expr a)) as [cleaned|] eqn:Hs;
      simplify_eq/=.
    exists (mkBody attrs' rb.1 trivia), cleaned.
    split; [done|]. split; [done|]. split.
    + rewrite Hlog. apply elem_of_app. right. apply elem_of_cons. right.
      apply elem_of_app. left. apply elem_of_app. left.
      apply list_elem_of_fmap.
      exists name. split; [done|].
      apply (range_order_elem range_order range_order_perm). by exists a.
    + unfold chosen_by in Hs. case_decide; simpl in Hs; by simplify_eq.
Qed.

(** C8. The run on slices, where [append] may write into an array that
    earlier slices share, gives the tree and the observations of the walk
    in which every child block gets the list of its parent with its own
    type appended; the slice of the caller shows afterwards what it showed
    before; and the part of the run that is at a place of the tree is that
    walk on the body there with the context of that place, so that no call
    sees what [append] did for a sibling. *)
Theorem cleanBody_contexts (body : Body) (s : slice) (σ : store) :
  slice_ok σ s →
  (λ r, (r.1.1, r.2)) <$> cleanBody range_order growslice body s σ
  = walk range_order body (contents σ s)
  ∧ ∀ r, cleanBody range_order growslice body s σ = Some r →
      contents r.1.2 s = contents σ s
      ∧ ∀ path sub c,
          body_at body path = Some sub →
          context_at body (contents σ s) path = Some c →
          ∃ sub' l pre post,
            walk range_order sub c = Some (sub', l)
            ∧ head l = Some (Enter c)
            ∧ Forall (λ e, match e with
                           | Enter c' | Visit c' _ _ => c `prefix_of` c'
                           end) l
            ∧ body_at r.1.1 path = Some sub'
            ∧ r.2 = pre ++ l ++ post.
Proof.
  intros Hok.
  pose proof (cleanBody_refines range_order growslice growslice_fits
                body s σ Hok) as Href.
  destruct (cleanBody range_order growslice body s σ) as [r|]; simpl in *.
  2:{ split; [done|]. intros r [=]. }
  destruct Href as [Hw Hkeep]. split; [done|].
  intros r' [= <-]. split; [by apply (keeps_slice _ _ _ Hok Hkeep)|].
  intros path sub c Hsub Hc.
  destruct (walk_at range_order range_order_perm path _ _ _ Hw sub c Hsub Hc)
    as (sub' & l & pre & post & Hws & Hat & Hlog).
  exists sub', l, pre, post. split; [done|]. split; [|split; [|done]].
  - destruct sub as [attrs blocks trivia].
    by apply (walk_inv range_order range_order_perm) in Hws
      as (attrs' & rb & [= -> ->] & _).
  - clear Hsub Hc Hat Hlog. revert c sub' l Hws.
    induction sub as [attrs blocks trivia IH] using Body_induction.
    intros c sub' l Hws.
    apply (walk_inv range_order range_order_perm) in Hws
      as (attrs' & rb & [= -> ->] & Hwb & _).
    simpl. constructor; [reflexivity|]. apply Forall_app. split.
    { apply Forall_fmap, Forall_true. intros n. simpl. reflexivity. }
    clear attrs attrs'. revert rb Hwb.
    induction IH as [|[ty ls sub] blocks Hsub _ IHb]; intros rb; simpl.
    { by intros [= <-]. }
    destruct (walk range_order sub (c ++ [ty])) as [[b1 l1]|] eqn:Hw1;
      simpl; [|done].
    destruct (walk_blocks _ c blocks) as [[bs l2]|]; simpl; [|done].
    intros [= <-]. simpl. apply Forall_app. split.
    + eapply Forall_impl; [apply (Hsub _ _ _ Hw1)|].
      intros [c'|c' ? ?] Hpre; (etrans; [|exact Hpre]); by apply prefix_app_r.
    + apply (IHb _ eq_refl).
Qed.

(** C9. A run of [cleanBody] that returns leaves the tree as it was but
    for the tokens of attribute expressions: the names of the attributes,
    their comments, the types, labels and order of the blocks and the
    other tokens are the same; an attribute whose expression has the shape
    that neither simplifier asks for is the same attribute afterwards; the
    slice of the caller shows what it showed. A tree without any
    expression of such a shape comes back identical, so that whatever is
    computed from it, its bytes included, is identical. The run returns
    unless [cleanValueExpr] panics on one of the expressions. *)
Theorem cleanBody_frame (body : Body) (s : slice) (σ : store) :
  slice_ok σ s →
  (∀ r, cleanBody range_order growslice body s σ = Some r →
     erase r.1.1 = erase body
     ∧ contents r.1.2 s = contents σ s
     ∧ ∀ path sub name a,
         body_at body path = Some sub →
         Attributes sub !! name = Some a →
         value_guard (expr a) = false → type_guard (expr a) = false →
         ∃ sub', body_at r.1.1 path = Some sub'
           ∧ Attributes sub' !! name = Some a)
  ∧ (unmatched body = true →
     ∃ σ' log, cleanBody range_order growslice body s σ = Some (body, σ', log))
  ∧ (∀ (file_bytes : Body → string) r,
       unmatched body = true →
       cleanBody range_order growslice body s σ = Some r →
       file_bytes r.1.1 = file_bytes body)
  ∧ (cleanBody range_order growslice body s σ = None →
     ∃ path sub name a, body_at body path = Some sub
       ∧ Attributes sub !! name = Some a ∧ cleanValueExpr (expr a) = None).
Proof.
  intros Hok.
  pose proof (cleanBody_refines range_order growslice growslice_fits
                body s σ Hok) as Href.
  split; [|split; [|split]].
  - intros r Hrun. rewrite Hrun in Href. destruct Href as [Hw Hkeep].
    split; [apply (walk_erase range_order range_order_perm _ _ _ Hw)|].
    split; [by apply (keeps_slice _ _ _ Hok Hkeep)|].
    intros path sub name a Hsub Ha Hv Ht.
    assert (∃ c, context_at body (contents σ s) path = Some c) as [c Hc].
    { clear Hw Hrun Hkeep Hok. revert body Hsub. generalize (contents σ s).
      induction path as [|i path IH]; intros ctx body; simpl; [by eexists|].
      destruct (Blocks body !! i) as [k|]; simpl; [|done]. apply IH. }
    destruct (walk_at range_order range_order_perm path _ _ _ Hw sub c Hsub Hc)
      as (sub' & l & pre & post & Hws & Hat & _).
    simpl in Hat. destruct sub as [attrs blocks trivia]. simpl in Ha.
    apply (walk_inv range_order range_order_perm) in Hws
      as (attrs' & rb & [= -> ->] & _ & Hin & _).
    destruct (Hin name a Ha) as (a' & Hcl & Ha').
    unfold cleaned_attr in Hcl. rewrite simplify_unmatched in Hcl by done.
    exists (mkBody attrs' rb.1 trivia). split; [done|]. simpl.
    destruct a. by simplify_eq/=.
  - intros Hu.
    destruct (walk_unmatched range_order range_order_perm body
                (contents σ s) Hu) as [log Hw].
    destruct (cleanBody range_order growslice body s σ) as [[[b' σ'] log']|];
      simpl in Href; [|congruence].
    destruct Href as [Hw' _]. exists σ', log'. by simplify_eq.
  - intros file_bytes r Hu Hrun.
    destruct (walk_unmatched range_order range_order_perm body
                (contents σ s) Hu) as [log Hw].
    rewrite Hrun in Href. destruct Href as [Hw' _]. f_equal. congruence.
  - intros Hnone. rewrite Hnone in Href.
    by apply (walk_None range_order range_order_perm) in Href.
Qed.

End WalkerProperties.

Lemma cleanBody_routes_witness :
  (TypeExpr = TypeExpr ↔ ["variable"] = ["variable"] ∧ "type" = "type")
  ∧ ∃ sub' cleaned,
      body_at deep_cleaned [0] = Some sub'
      ∧ Attributes sub' !! "type" = Some (mkAttribute [] cleaned [])
      ∧ Visit ["variable"] "type" TypeExpr ∈ deep_log
      ∧ cleaned = cleanTypeExpr (quoted "list").
Proof.
  destruct (cleanBody_routes sorted_order sorted_order_perm doubling
              doubling_fits deep nil_slice []
              (deep_cleaned, deep_store, deep_log)
              (nil_slice_ok []) deep_run) as [Hlog Hattr].
  split.
  - apply Hlog. unfold deep_log. simpl. repeat constructor.
  - apply (Hattr [0] variable_body ["variable"] "type"
             (attr_of (quoted "list"))); reflexivity.
Defined.

Lemma cleanBody_contexts_witness :
  (λ r, (r.1.1, r.2)) <$> cleanBody sorted_order doubling deep nil_slice []
  = walk sorted_order deep []
  ∧ ∃ sub' l pre post,
      walk sorted_order (leaf "string") ["variable"; "a"; "b"; "d"]
        = Some (sub', l)
      ∧ head l = Some (Enter ["variable"; "a"; "b"; "d"])
      ∧ Forall (λ e, match e with
                     | Enter c' | Visit c' _ _ =>
                         ["variable"; "a"; "b"; "d"] `prefix_of` c'
                     end) l
      ∧ body_at deep_cleaned [0; 0; 0; 1] = Some sub'
      ∧ deep_log = pre ++ l ++ post.
Proof.
  destruct (cleanBody_contexts sorted_order sorted_order_perm doubling
              doubling_fits deep nil_slice [] (nil_slice_ok []))
    as [Hwalk Hrun].
  split; [exact Hwalk|].
  destruct (Hrun (deep_cleaned, deep_store, deep_log) deep_run) as [_ Hat].
  apply (Hat [0; 0; 0; 1] (leaf "string") ["variable"; "a"; "b"; "d"]);
    reflexivity.
Defined.

Lemma plain_run :
  cleanBody sorted_order doubling plain nil_slice []
  = Some (plain, plain_store, plain_log).
Proof. vm_compute. reflexivity. Qed.

Lemma cleanBody_frame_witness :
  erase plain = erase plain
  ∧ (∃ sub', body_at plain [0] = Some sub'
       ∧ Attributes sub' !! "type" = Some (attr_of [tIdent "number"]))
  ∧ ∃ σ' log,
      cleanBody sorted_order doubling plain nil_slice [] = Some (plain, σ', log).
Proof.
  destruct (cleanBody_frame sorted_order sorted_order_perm doubling
              doubling_fits plain nil_slice [] (nil_slice_ok []))
    as (Hret & Hsame & _).
  destruct (Hret (plain, plain_store, plain_log) plain_run)
    as (Herase & _ & Hattr).
  split; [exact Herase|]. split.
  - apply (Hattr [0] (mkBody {[ "type" := attr_of [tIdent "number"] ]} [] [])
             "type" (attr_of [tIdent "number"])); reflexivity.
  - apply Hsame. reflexivity.
Defined.

(** ** More on the token rewriters *)

Lemma trimNewlines_fixed (r : Tokens) :
  (∀ x, head r = Some x → is_newline x = false) →
  (∀ x, last r = Some x → is_newline x = false) →
  trimNewlines r = Some r.
Proof.
  intros Hh Hl.
  destruct (trimNewlines_cases r)
    as [(Hne & Hall & _)
       |(pre & r' & post & Heq & Hsome & Hpre & Hpost & _)].
  - destruct r as [|x r]; [done|].
    apply Forall_cons in Hall as [Hx _]. by rewrite (Hh x) in Hx.
  - rewrite Hsome. f_equal.
    destruct pre as [|x pre].
    2:{ apply Forall_cons in Hpre as [Hx _]. subst r.
        by rewrite (Hh x) in Hx. }
    destruct post as [|y post _] using rev_ind.
    { subst r. by rewrite app_nil_r. }
    apply Forall_app in Hpost as [_ Hy]. apply Forall_cons in Hy as [Hy _].
    subst r. rewrite (Hl y) in Hy; [done|].
    by rewrite app_nil_l, app_assoc, last_snoc.
Qed.

Lemma trimNewlines_ends (t r : Tokens) :
  trimNewlines t = Some r →
  trimNewlines r = Some r
  ∧ (∀ x, head r = Some x → Type_ x ≠ TokenNewline)
  ∧ (∀ x, last r = Some x → Type_ x ≠ TokenNewline).
Proof.
  intros Ht.
  destruct (trimNewlines_cases t)
    as [(_ & _ & Hnone)|(pre & r' & post & _ & Hsome & _ & _ & _ & Hh & Hl)];
    [congruence|].
  assert (r' = r) as -> by congruence.
  split; [by apply trimNewlines_fixed|].
  split; intros x Hx Hty.
  - apply Hh in Hx. by apply bool_decide_eq_false in Hx.
  - apply Hl in Hx. by apply bool_decide_eq_false in Hx.
Qed.

(** X1. [trimNewlines], when it returns, gives a sequence that has no
    newline at either end, and that it gives back as it is: trimming
    twice is trimming once. *)
Theorem trimNewlines_idempotent (t r : Tokens) :
  trimNewlines t = Some r →
  trimNewlines r = Some r
  ∧ (∀ x, head r = Some x → Type_ x ≠ TokenNewline)
  ∧ (∀ x, last r = Some x → Type_ x ≠ TokenNewline).
Proof. apply trimNewlines_ends. Qed.

Lemma trimNewlines_idempotent_witness :
  trimNewlines [tIdent "a"; tNewline; tIdent "b"]
  = Some [tIdent "a"; tNewline; tIdent "b"].
Proof.
  apply (trimNewlines_idempotent
           [tNewline; tIdent "a"; tNewline; tIdent "b"; tNewline; tNewline]).
  reflexivity.
Defined.

(** X2. What [cleanValueExpr] returns in place of its input is never empty, is
    at least four tokens shorter, and has no newline at either end. *)
Theorem cleanValueExpr_changed_result (t r : Tokens) :
  cleanValueExpr t = Some r → r ≠ t →
  r ≠ [] ∧ length r + 4 ≤ length t
  ∧ (∀ x, head r = Some x → Type_ x ≠ TokenNewline)
  ∧ (∀ x, last r = Some x → Type_ x ≠ TokenNewline).
Proof.
  rewrite cleanValueExpr_eq. intros Hr Hne.
  destruct (value_guard t) eqn:Hg; [|congruence].
  destruct (scan_inside (interior t) 0); [congruence|].
  destruct (value_guard_shape t Hg) as (a & b & c & d & Ht & Hin).
  destruct (trimNewlines_ends _ _ Hr) as (_ & Hh & Hl).
  split; [|split; [|done]].
  - destruct (trimNewlines_cases (interior t))
      as [(_ & _ & Hnone)|(pre & r' & post & _ & Hsome & _ & _ & Hnil & _)];
      [congruence|].
    assert (r' = r) as -> by congruence.
    destruct Hnil as [?|[x Hx]]; [done|]. by intros ->.
  - apply trimNewlines_length in Hr.
    apply (f_equal length) in Ht. simpl in Ht. rewrite length_app in Ht.
    simpl in Ht. lia.
Qed.

Lemma cleanValueExpr_changed_result_witness :
  [tIdent "foo"] ≠ []
  ∧ length [tIdent "foo"] + 4
    ≤ length (wrapped [tNewline; tIdent "foo"; tNewline])
  ∧ (∀ x, head [tIdent "foo"] = Some x → Type_ x ≠ TokenNewline)
  ∧ (∀ x, last [tIdent "foo"] = Some x → Type_ x ≠ TokenNewline).
Proof.
  apply (cleanValueExpr_changed_result
           (wrapped [tNewline; tIdent "foo"; tNewline]));
    [reflexivity|discriminate].
Defined.

(** X3. A quoted interpolation whose interior holds no delimiter of an
    interpolation and some token other than a newline is unwrapped:
    [cleanValueExpr] returns, and returns the interior without the newlines
    at its ends. *)
Theorem cleanValueExpr_unwraps (t : Tokens) :
  value_guard t = true →
  Forall (λ k, is_interp_delim k = false) (interior t) →
  Exists (λ k, is_newline k = false) (interior t) →
  ∃ pre r post,
    cleanValueExpr t = Some r ∧ r ≠ []
    ∧ interior t = pre ++ r ++ post
    ∧ Forall (λ k, Type_ k = TokenNewline) pre
    ∧ Forall (λ k, Type_ k = TokenNewline) post
    ∧ (∀ x, head r = Some x → Type_ x ≠ TokenNewline)
    ∧ (∀ x, last r = Some x → Type_ x ≠ TokenNewline).
Proof.
  intros Hg Hnod Hex. rewrite cleanValueExpr_eq, Hg.
  destruct (scan_inside (interior t) 0) eqn:Hscan.
  { apply scan_inside_true_iff in Hscan as (i & tok & Hi & Hd & _).
    rewrite Forall_lookup in Hnod. by rewrite (Hnod _ _ Hi) in Hd. }
  destruct (trimNewlines_cases (interior t))
    as [(_ & Hall & _)
       |(pre & r & post & Heq & Hsome & Hpre & Hpost & Hnil & _)].
  { apply Exists_exists in Hex as (x & Hx & Hnl).
    rewrite Forall_forall in Hall. by rewrite (Hall _ Hx) in Hnl. }
  destruct (trimNewlines_ends _ _ Hsome) as (_ & Hh & Hl).
  exists pre, r, post. split; [done|]. split.
  { destruct Hnil as [Hnil|[x Hx]]; [|by intros ->].
    rewrite Hnil in Hex. by apply Exists_nil in Hex. }
  split; [done|].
  split; [|split; [|done]];
    (eapply Forall_impl; [eassumption|]);
    intros k Hk; by apply bool_decide_eq_true in Hk.
Qed.

Lemma cleanValueExpr_unwraps_witness :
  ∃ pre r post,
    cleanValueExpr (wrapped [tNewline; tIdent "var"; lit TokenDot ".";
                             tIdent "x"; tNewline]) = Some r
    ∧ r ≠ []
    ∧ interior (wrapped [tNewline; tIdent "var"; lit TokenDot ".";
                         tIdent "x"; tNewline]) = pre ++ r ++ post
    ∧ Forall (λ k, Type_ k = TokenNewline) pre
    ∧ Forall (λ k, Type_ k = TokenNewline) post
    ∧ (∀ x, head r = Some x → Type_ x ≠ TokenNewline)
    ∧ (∀ x, last r = Some x → Type_ x ≠ TokenNewline).
Proof.
  apply cleanValueExpr_unwraps.
  - reflexivity.
  - repeat constructor.
  - apply Exists_cons_tl, Exists_cons_hd. reflexivity.
Defined.

(** X5. No sequence has the shape that [cleanTypeExpr] asks for and the shape
    that [cleanValueExpr] asks for: where one of the two rewrites, the
    other gives its input back, and [cleanValueExpr] gives back what
    [cleanTypeExpr] wrote. *)
Theorem simplifiers_exclusive (t : Tokens) :
  (type_guard t = true →
     value_guard t = false ∧ cleanValueExpr t = Some t
     ∧ cleanValueExpr (cleanTypeExpr t) = Some (cleanTypeExpr t))
  ∧ (value_guard t = true → type_guard t = false ∧ cleanTypeExpr t = t).
Proof.
  assert (type_guard t = true → value_guard t = false) as Hex.
  { intros Ht. destruct t as [|a [|b [|c [|]]]]; try done. }
  split.
  - intros Ht. pose proof (Hex Ht) as Hv. split; [done|].
    split; [by rewrite cleanValueExpr_eq, Hv|].
    rewrite cleanValueExpr_eq.
    destruct (cleanTypeExpr_cases t)
      as [[_ ->]|(a & b & c & -> & _ & [[_ ->]|[[_ ->]|[[_ ->]|(_ & _ & _ & ->)]]])];
      by rewrite ?Hv.
  - intros Hv. destruct (type_guard t) eqn:Ht.
    { by rewrite (Hex eq_refl) in Hv. }
    split; [done|].
    destruct (cleanTypeExpr_cases t) as [[_ ->]|(a & b & c & _ & Ht' & _)];
      [done|congruence].
Qed.

Lemma simplifiers_exclusive_witness :
  (value_guard (quoted "map") = false
   ∧ cleanValueExpr (quoted "map") = Some (quoted "map")
   ∧ cleanValueExpr (cleanTypeExpr (quoted "map"))
     = Some (cleanTypeExpr (quoted "map")))
  ∧ type_guard (wrapped [tIdent "foo"]) = false
  ∧ cleanTypeExpr (wrapped [tIdent "foo"]) = wrapped [tIdent "foo"].
Proof.
  split.
  - apply (proj1 (simplifiers_exclusive (quoted "map"))). reflexivity.
  - apply (proj2 (simplifiers_exclusive (wrapped [tIdent "foo"]))). reflexivity.
Defined.

Lemma wrap_int_small (z : Z) :
  (- 2 ^ 63 ≤ z < 2 ^ 63)%Z → wrap_int z = z.
Proof.
  intros Hz. unfold wrap_int.
  rewrite Z.mod_small by lia. lia.
Qed.

Lemma quotes_after_balance (seen : Tokens) :
  ∀ q, (- 2 ^ 63 ≤ q - Z.of_nat (length seen))%Z →
       (q + Z.of_nat (length seen) < 2 ^ 63)%Z →
       quotes_after seen q = (q + balance seen)%Z.
Proof.
  induction seen as [|x seen IH]; intros q Hlo Hhi; simpl; [lia|].
  simpl length in Hlo, Hhi. rewrite Nat2Z.inj_succ in Hlo, Hhi.
  destruct (is_type TokenOQuote x).
  - rewrite wrap_int_small by lia. rewrite IH by lia. lia.
  - destruct (is_type TokenCQuote x).
    + rewrite wrap_int_small by lia. rewrite IH by lia. lia.
    + rewrite IH by lia. lia.
Qed.

(** X4. When the interior is some tokens followed by a delimiter of an
    interpolation, and those tokens, fewer than 2^63, hold at least as many
    close quotes as open quotes, [cleanValueExpr] gives its input back.
    Such is every string whose first interpolation holds an expression
    with balanced quotes, a call with string arguments for one, and is
    followed by more of the template. *)
Theorem cleanValueExpr_keeps_siblings (t first rest : Tokens) (d : Token) :
  interior t = first ++ d :: rest →
  is_interp_delim d = true →
  (balance first ≤ 0)%Z →
  (Z.of_nat (length first) < 2 ^ 63)%Z →
  cleanValueExpr t = Some t.
Proof.
  intros Hin Hd Hbal Hlen. rewrite cleanValueExpr_eq.
  destruct (value_guard t); [|done].
  assert (scan_inside (interior t) 0 = true) as ->; [|done].
  apply scan_inside_true_iff. exists (length first), d. rewrite Hin.
  split; [by rewrite list_lookup_middle|]. split; [done|].
  rewrite take_app_length, quotes_after_balance by lia. lia.
Qed.

Lemma cleanValueExpr_keeps_siblings_witness :
  cleanValueExpr
    (wrapped [tIdent "f"; tOParen; tOQuote; lit TokenQuotedLit "x"; tCQuote;
              tCParen; tSeqEnd; tInterp; tIdent "b"])
  = Some
    (wrapped [tIdent "f"; tOParen; tOQuote; lit TokenQuotedLit "x"; tCQuote;
              tCParen; tSeqEnd; tInterp; tIdent "b"]).
Proof.
  apply (cleanValueExpr_keeps_siblings _
           [tIdent "f"; tOParen; tOQuote; lit TokenQuotedLit "x"; tCQuote;
            tCParen]
           [tInterp; tIdent "b"] tSeqEnd).
  - reflexivity.
  - reflexivity.
  - vm_compute. discriminate.
  - vm_compute. reflexivity.
Defined.

(** X6. On a sequence of fewer than 2^63 tokens the counter [quotes] never
    wraps around: it is the number of open quotes minus the number of close
    quotes, and the scan returns early exactly when it meets a delimiter of
    an interpolation at a place where that difference is not positive. *)
Theorem quotes_never_wrap (inside : Tokens) :
  (Z.of_nat (length inside) < 2 ^ 63)%Z →
  quotes_after inside 0 = balance inside
  ∧ (scan_inside inside 0 = true ↔
     ∃ i tok, inside !! i = Some tok ∧ is_interp_delim tok = true
       ∧ (balance (take i inside) ≤ 0)%Z).
Proof.
  intros Hlen.
  assert (∀ i, quotes_after (take i inside) 0 = balance (take i inside)) as Hq.
  { intros i. rewrite quotes_after_balance; [lia| |];
      rewrite length_take; lia. }
  split.
  - specialize (Hq (length inside)). by rewrite take_ge in Hq.
  - rewrite scan_inside_true_iff. split.
    + intros (i & tok & Hi & Hd & Hle). exists i, tok. by rewrite <- Hq.
    + intros (i & tok & Hi & Hd & Hle). exists i, tok. by rewrite Hq.
Qed.

Lemma quotes_never_wrap_witness :
  quotes_after foo_of_bar 0 = balance foo_of_bar
  ∧ (scan_inside foo_of_bar 0 = true ↔
     ∃ i tok, foo_of_bar !! i = Some tok ∧ is_interp_delim tok = true
       ∧ (balance (take i foo_of_bar) ≤ 0)%Z).
Proof.
  apply quotes_never_wrap. vm_compute. reflexivity.
Defined.

(** ** More on the walker *)

Section WalkerOutcome.

Variable range_order : gmap string Attribute → list string.
Hypothesis range_order_perm :
  ∀ m, range_order m ≡ₚ (map_to_list m).*1.

Lemma walk_None_routed (body : Body) :
  ∀ ctx, walk range_order body ctx = None →
    ∃ path sub c name a,
      body_at body path = Some sub ∧ context_at body ctx path = Some c
      ∧ Attributes sub !! name = Some a
      ∧ simplify (chosen_by c name) (expr a) = None.
Proof.
  induction body as [attrs blocks trivia IH] using Body_induction.
  intros ctx. simpl.
  pose proof (clean_attrs_spec (chosen_by ctx) ctx (range_order attrs)
                (range_order_NoDup range_order range_order_perm attrs)
                attrs [Enter ctx]) as Hspec.
  destruct (clean_attrs _ ctx (range_order attrs) _) as [st|]; simpl.
  2:{ intros _. destruct Hspec as (n & a & _ & Ha & Hnone).
      { intros n Hn. by apply (range_order_elem range_order range_order_perm). }
      by exists [], (mkBody attrs blocks trivia), ctx, n, a. }
  clear Hspec.
  assert (walk_blocks (walk range_order) ctx blocks = None →
          ∃ i k path sub c name a, blocks !! i = Some k
            ∧ body_at (BlockBody k) path = Some sub
            ∧ context_at (BlockBody k) (ctx ++ [BlockType k]) path = Some c
            ∧ Attributes sub !! name = Some a
            ∧ simplify (chosen_by c name) (expr a) = None) as Hblocks.
  { clear st. induction IH as [|[ty ls sub] blocks Hsub _ IHb]; simpl; [done|].
    destruct (walk range_order sub (ctx ++ [ty])) as [[b1 l1]|] eqn:Hw1; simpl.
    - destruct (walk_blocks _ ctx blocks) as [[bs l2]|]; simpl; [done|].
      intros _. destruct (IHb eq_refl) as (i & k & Hrest).
      by exists (S i), k.
    - intros _.
      destruct (Hsub _ Hw1) as (path & sub' & c & name & a & Hrest).
      by exists 0, (mkBlock ty ls sub), path, sub', c, name, a. }
  destruct (walk_blocks _ ctx blocks) as [rb|]; simpl; [done|].
  intros _.
  destruct (Hblocks eq_refl)
    as (i & k & path & sub & c & name & a & Hk & Hsub & Hc & Hrest).
  exists (i :: path), sub, c, name, a. simpl. by rewrite Hk.
Qed.

Lemma walk_Some_all (body : Body) (ctx : list string) (r : Body * list event) :
  walk range_order body ctx = Some r →
  ∀ path sub c name a,
    body_at body path = Some sub → context_at body ctx path = Some c →
    Attributes sub !! name = Some a →
    is_Some (simplify (chosen_by c name) (expr a)).
Proof.
  intros Hw path sub c name a Hsub Hc Ha.
  destruct (walk_at range_order range_order_perm path _ _ _ Hw sub c Hsub Hc)
    as (sub' & l & pre & post & Hws & _).
  destruct sub as [attrs blocks trivia]. simpl in Ha.
  apply (walk_inv range_order range_order_perm) in Hws
    as (attrs' & rb & _ & _ & Hin & _).
  destruct (Hin name a Ha) as (a' & Hcl & _). unfold cleaned_attr in Hcl.
  destruct (simplify (chosen_by c name) (expr a)); [by eexists|done].
Qed.

End WalkerOutcome.

Lemma walk_blocks_cons
    (rec : Body → list string → option (Body * list event))
    (ctx : list string) (ty : string) (ls : list string) (sub : Body)
    (rest : list Block) :
  walk_blocks rec ctx (mkBlock ty ls sub :: rest)
  = (r1 ← rec sub (ctx ++ [ty]);
     r2 ← walk_blocks rec ctx rest;
     Some (mkBlock ty ls r1.1 :: r2.1, r1.2 ++ r2.2)).
Proof. reflexivity. Qed.

(** The tree that the walk leaves does not depend on the order of the
    range over the attributes. *)
Lemma walk_order_independent
    (ro1 ro2 : gmap string Attribute → list string) (body : Body) :
  (∀ m, ro1 m ≡ₚ (map_to_list m).*1) →
  (∀ m, ro2 m ≡ₚ (map_to_list m).*1) →
  ∀ ctx, fst <$> walk ro1 body ctx = fst <$> walk ro2 body ctx.
Proof.
  intros Hp1 Hp2.
  assert (∀ ro ro', (∀ m, ro m ≡ₚ (map_to_list m).*1) →
            (∀ m, ro' m ≡ₚ (map_to_list m).*1) →
            ∀ b ctx, walk ro b ctx = None → walk ro' b ctx = None) as Hnone.
  { intros ro ro' Hp Hp' b ctx Hn.
    destruct (walk_None_routed ro Hp b ctx Hn)
      as (path & sub & c & name & a & Hsub & Hc & Ha & Hs).
    destruct (walk ro' b ctx) as [r|] eqn:Hw; [|done].
    destruct (walk_Some_all ro' Hp' b ctx r Hw path sub c name a Hsub Hc Ha)
      as [x Hx]. congruence. }
  induction body as [attrs blocks trivia IH] using Body_induction.
  intros ctx.
  destruct (walk ro1 (mkBody attrs blocks trivia) ctx) as [r1|] eqn:Hw1.
  2:{ by rewrite (Hnone ro1 ro2 Hp1 Hp2 _ _ Hw1). }
  destruct (walk ro2 (mkBody attrs blocks trivia) ctx) as [r2|] eqn:Hw2.
  2:{ by rewrite (Hnone ro2 ro1 Hp2 Hp1 _ _ Hw2) in Hw1. }
  simpl. f_equal.
  apply (walk_inv ro1 Hp1) in Hw1 as (attrs1 & rb1 & -> & Hb1 & Hin1 & Hout1).
  apply (walk_inv ro2 Hp2) in Hw2 as (attrs2 & rb2 & -> & Hb2 & Hin2 & Hout2).
  simpl. f_equal.
  - apply map_eq. intros n. destruct (attrs !! n) as [a|] eqn:Ha.
    + destruct (Hin1 n a Ha) as (a1 & Hc1 & ->).
      destruct (Hin2 n a Ha) as (a2 & Hc2 & ->). congruence.
    + by rewrite (Hout1 n Ha), (Hout2 n Ha).
  - clear Hin1 Hin2 Hout1 Hout2. revert rb1 rb2 Hb1 Hb2.
    induction IH as [|[ty ls sub] blocks Hsub _ IHb]; intros rb1 rb2.
    { by intros [= <-] [= <-]. }
    rewrite !walk_blocks_cons.
    specialize (Hsub (ctx ++ [ty])). simpl in Hsub.
    destruct (walk ro1 sub (ctx ++ [ty])) as [[b1 l1]|] eqn:E1; simpl; [|done].
    destruct (walk ro2 sub (ctx ++ [ty])) as [[b2 l2]|] eqn:E2; simpl;
      [|by intros _ ?].
    injection Hsub as ->.
    destruct (walk_blocks (walk ro1) ctx blocks) as [[bs1 m1]|]; simpl; [|done].
    destruct (walk_blocks (walk ro2) ctx blocks) as [[bs2 m2]|]; simpl;
      [|by intros _ ?].
    intros [= <-] [= <-]. simpl. f_equal.
    apply (IHb _ _ eq_refl eq_refl).
Qed.

(** X7. The tree that [cleanBody] leaves is the same for every order in which
    [range] goes through the attributes, every capacity that [append]
    chooses, and every store and slice that hold the same context; and
    where one such run panics, all do. *)
Theorem cleanBody_result_determined
    (ro1 ro2 : gmap string Attribute → list string)
    (grow1 grow2 : nat → nat → nat)
    (body : Body) (s1 s2 : slice) (σ1 σ2 : store) :
  (∀ m, ro1 m ≡ₚ (map_to_list m).*1) →
  (∀ m, ro2 m ≡ₚ (map_to_list m).*1) →
  (∀ c n, n ≤ grow1 c n) → (∀ c n, n ≤ grow2 c n) →
  slice_ok σ1 s1 → slice_ok σ2 s2 →
  contents σ1 s1 = contents σ2 s2 →
  (λ r, r.1.1) <$> cleanBody ro1 grow1 body s1 σ1
  = (λ r, r.1.1) <$> cleanBody ro2 grow2 body s2 σ2.
Proof.
  intros Hp1 Hp2 Hg1 Hg2 Hok1 Hok2 Hc.
  pose proof (cleanBody_refines ro1 grow1 Hg1 body s1 σ1 Hok1) as H1.
  pose proof (cleanBody_refines ro2 grow2 Hg2 body s2 σ2 Hok2) as H2.
  pose proof (walk_order_independent ro1 ro2 body Hp1 Hp2 (contents σ1 s1))
    as Hw. rewrite Hc in Hw at 2. unfold refines in *.
  destruct (cleanBody ro1 grow1 body s1 σ1) as [r1|],
    (cleanBody ro2 grow2 body s2 σ2) as [r2|]; simpl.
  - destruct H1 as [H1 _], H2 as [H2 _]. rewrite H1, H2 in Hw.
    simpl in Hw. congruence.
  - destruct H1 as [H1 _]. by rewrite H1, H2 in Hw.
  - destruct H2 as [H2 _]. by rewrite H1, H2 in Hw.
  - done.
Qed.

Lemma cleanBody_result_determined_witness :
  (λ r, r.1.1) <$> cleanBody sorted_order doubling deep nil_slice []
  = (λ r, r.1.1) <$>
      cleanBody reverse_order (λ _ n, n) deep (mkSlice 7 0 0) [["x"]].
Proof.
  apply cleanBody_result_determined.
  - apply sorted_order_perm.
  - intros m. unfold reverse_order. by rewrite reverse_Permutation.
  - apply doubling_fits.
  - done.
  - apply nil_slice_ok.
  - split; simpl; [done|lia].
  - reflexivity.
Defined.

(** X8. [cleanBody] panics exactly when the tree has, at some place, an
    attribute that is not the [type] of a top-level [variable] block and
    whose expression makes [cleanValueExpr] panic. *)
Theorem cleanBody_panics_iff
    (range_order : gmap string Attribute → list string)
    (growslice : nat → nat → nat)
    (body : Body) (s : slice) (σ : store) :
  (∀ m, range_order m ≡ₚ (map_to_list m).*1) →
  (∀ c n, n ≤ growslice c n) →
  slice_ok σ s →
  (cleanBody range_order growslice body s σ = None ↔
   ∃ path sub c name a,
     body_at body path = Some sub
     ∧ context_at body (contents σ s) path = Some c
     ∧ Attributes sub !! name = Some a
     ∧ ¬ (c = ["variable"] ∧ name = "type")
     ∧ cleanValueExpr (expr a) = None).
Proof.
  intros Hp Hg Hok.
  pose proof (cleanBody_refines range_order growslice Hg body s σ Hok) as Href.
  unfold refines in Href. split.
  - intros Hnone. rewrite Hnone in Href.
    destruct (walk_None_routed range_order Hp body _ Href)
      as (path & sub & c & name & a & Hsub & Hc & Ha & Hs).
    exists path, sub, c, name, a. repeat (split; [done|]).
    unfold chosen_by in Hs. case_decide; [done|]. by split.
  - intros (path & sub & c & name & a & Hsub & Hc & Ha & Hroute & Hpanic).
    destruct (cleanBody range_order growslice body s σ) as [r|]; [|done].
    destruct Href as [Hw _].
    destruct (walk_Some_all range_order Hp body _ _ Hw path sub c name a
                Hsub Hc Ha) as [x Hx].
    unfold chosen_by in Hx. rewrite decide_False in Hx by done.
    simpl in Hx. congruence.
Qed.

Lemma cleanBody_panics_iff_witness :
  cleanBody (λ m, (map_to_list m).*1) (λ c n, Nat.max n (2 * c)) broken
    (mkSlice 0 0 0) [] = None.
Proof.
  apply cleanBody_panics_iff.
  - done.
  - intros c n. lia.
  - split; simpl; [done|lia].
  - exists [0],
      (mkBody {[ "name" := mkAttribute [] (wrapped [lit TokenNewline "n"]) [] ]}
         [] []),
      ["resource"], "name", (mkAttribute [] (wrapped [lit TokenNewline "n"]) []).
    split; [reflexivity|]. split; [reflexivity|]. split; [reflexivity|].
    split; [|reflexivity]. intros [[=] _].
Defined.

(** ** The driver *)

Lemma demo_run :
  demo_processItem 3 "m" demo_start
  = (Returned,
     mkState (gmap string string) (<["m/a.tf" := "new"]> demo_world)
       deep_store demo_trace).
Proof. vm_compute. reflexivity. Qed.

Section DriverFacts.

Variable World : Type.
Variable os_Lstat : World → string → error + FileInfo.
Variable ioutil_ReadDir : World → string → error + list FileInfo.
Variable ioutil_ReadFile : World → string → error + string.
Variable ioutil_WriteFile :
  World → string → string → Z → option error * World.
Variable filepath_Join : string → string → string.
Variable ParseConfig : string → string → Body * list Diagnostic.
Variable FileBytes : Body → string.
Variable range_order : gmap string Attribute → list string.
Variable growslice : nat → nat → nat.

Local Abbreviation ordered_after :=
  (in_order_after ParseConfig FileBytes range_order growslice).
Local Abbreviation ordered :=
  (in_order ParseConfig FileBytes range_order growslice).
Local Abbreviation ordered_call :=
  (called_in_order ParseConfig FileBytes range_order growslice).
Local Abbreviation runFile :=
  (processFile World ioutil_ReadFile ioutil_WriteFile ParseConfig FileBytes
     range_order growslice).
Local Abbreviation runItem :=
  (processItem World os_Lstat ioutil_ReadDir ioutil_ReadFile
     ioutil_WriteFile filepath_Join ParseConfig FileBytes range_order
     growslice).
Local Abbreviation runDir :=
  (processDir_with World ioutil_ReadDir filepath_Join).
Local Abbreviation runMain :=
  (main World os_Lstat ioutil_ReadDir ioutil_ReadFile ioutil_WriteFile
     filepath_Join ParseConfig FileBytes range_order growslice).

Lemma after_stat_prepend (x pre : list effect) (p : string) (info : FileInfo) :
  after_stat p info pre → after_stat p info (x ++ pre).
Proof.
  intros (pre' & skip & -> & Hskip). exists (x ++ pre'), skip.
  by rewrite <- app_assoc.
Qed.

Lemma called_in_order_prepend (x pre : list effect) (e : effect) :
  ordered_call pre e → ordered_call (x ++ pre) e.
Proof.
  destruct e as [m|fn r|fn r|fn r|fn data perm r]; simpl; try done.
  - intros (pre' & info & -> & Hrest). exists (x ++ pre'), info.
    by rewrite <- app_assoc.
  - intros (info & Hstat & Hrest). exists info.
    split; [by apply after_stat_prepend|done].
  - intros (pre' & info & src & σ & cleaned & -> & Hstat & Hrest).
    exists (x ++ pre'), info, src, σ, cleaned.
    split; [by rewrite <- app_assoc|].
    split; [by apply after_stat_prepend|done].
Qed.

Lemma in_order_after_prepend (x before seg : list effect) :
  ordered_after before seg → ordered_after (x ++ before) seg.
Proof.
  intros H pre e post Heq. rewrite <- app_assoc.
  apply called_in_order_prepend. by eapply H.
Qed.

Lemma in_order_after_nil (before : list effect) : ordered_after before [].
Proof. intros pre e post Heq. by destruct pre. Qed.

Lemma in_order_after_app (before s1 s2 : list effect) :
  ordered_after before s1 → ordered_after (before ++ s1) s2 →
  ordered_after before (s1 ++ s2).
Proof.
  intros H1 H2 pre e post Heq.
  apply app_eq_inv in Heq as [(k & -> & Hk)|(k & -> & ->)].
  - destruct k as [|e' k]; simpl in Hk.
    + subst s2. pose proof (H2 [] e post eq_refl) as H3.
      by rewrite !app_nil_r in H3.
    + injection Hk as -> ->. by apply (H1 pre e' k).
  - rewrite app_assoc. by apply (H2 k e post).
Qed.

Lemma in_order_after_free (before seg : list effect) :
  Forall free seg → ordered_after before seg.
Proof.
  intros Hfree pre e post ->. apply Forall_app in Hfree as [_ Hfree].
  apply Forall_cons in Hfree as [He _]. by destruct e.
Qed.

Lemma in_order_after_cons (before : list effect) (e : effect)
    (seg : list effect) :
  ordered_call before e → ordered_after (before ++ [e]) seg →
  ordered_after before (e :: seg).
Proof.
  intros He Hseg. apply (in_order_after_app before [e] seg); [|done].
  intros pre e' post Heq. destruct pre as [|x pre]; simplify_eq/=.
  - by rewrite app_nil_r.
  - by destruct pre.
Qed.

Lemma print_diagnostics_trace (diags : list Diagnostic)
    (st : driver_state World) :
  trace World
    (foldl (λ st diag, emit World (Printed (print_diagnostic diag)) st)
       st diags)
  = trace World st ++ ((λ diag, Printed (print_diagnostic diag)) <$> diags).
Proof.
  revert st. induction diags as [|d diags IH]; intros st; simpl.
  - by rewrite app_nil_r.
  - rewrite IH. simpl. by rewrite <- app_assoc.
Qed.

(** What [processFile] adds to the trace, when it is called as
    [processItem] calls it. *)
Lemma processFile_in_order (fn : string) (mode : Z) (st : driver_state World)
    (before : list effect) (info : FileInfo) :
  after_stat fn info before → IsDir info = false →
  HasSuffix fn ".tf" = true → mode = Mode info →
  ∃ new, trace World (runFile fn mode st).2 = trace World st ++ new
    ∧ ordered_after before new.
Proof.
  intros Hstat Hdir Hsuf ->. unfold processFile.
  assert (∀ r, ordered_call before (CallReadFile fn r)) as Hread.
  { intros r. exists info. by split. }
  destruct (ioutil_ReadFile (world World st) fn) as [err|src] eqn:Hr.
  { eexists. simpl. rewrite <- app_assoc. split; [done|].
    apply in_order_after_cons; [done|].
    apply in_order_after_free. by repeat constructor. }
  destruct (HasErrors (ParseConfig src fn).2) eqn:Herr.
  { eexists. simpl. rewrite print_diagnostics_trace. simpl.
    rewrite <- app_assoc. split; [done|].
    apply in_order_after_cons; [done|].
    apply in_order_after_free, Forall_fmap, Forall_true. by intros d. }
  simpl.
  destruct (cleanFile range_order growslice (ParseConfig src fn).1
              (heap World st)) as [cleaned|] eqn:Hclean; simpl.
  2:{ eexists. split; [done|].
      apply in_order_after_cons; [done|apply in_order_after_nil]. }
  case_decide as Hsame; simpl.
  { eexists. split; [done|].
    apply in_order_after_cons; [done|apply in_order_after_nil]. }
  assert (∀ r, ordered_call (before ++ [CallReadFile fn (inr src)])
                 (CallWriteFile fn (FileBytes cleaned.1.1) (Mode info) r))
    as Hwrite.
  { intros r. exists before, info, src, (heap World st), cleaned.
    by repeat split. }
  destruct (ioutil_WriteFile (world World st) fn (FileBytes cleaned.1.1)
              (Mode info)) as [[err|] w'] eqn:Hw; simpl.
  - eexists. rewrite <- !app_assoc. split; [done|].
    apply in_order_after_cons; [done|].
    apply in_order_after_cons; [done|].
    apply in_order_after_free. by repeat constructor.
  - eexists. rewrite <- !app_assoc. split; [done|].
    apply in_order_after_cons; [done|].
    apply in_order_after_cons; [done|].
    apply in_order_after_free. by repeat constructor.
Qed.

Lemma for_entries_in_order
    (item : string → driver_state World → status * driver_state World)
    (fn : string) (entries : list FileInfo) :
  (∀ fn' st', ∃ new, trace World (item fn' st').2 = trace World st' ++ new
                ∧ ordered new) →
  ∀ st, ∃ new,
    trace World (for_entries World filepath_Join item fn entries st).2
    = trace World st ++ new
    ∧ ordered new.
Proof.
  intros Hitem. induction entries as [|entry rest IH]; intros st; simpl.
  { exists []. split; [by rewrite app_nil_r|apply in_order_after_nil]. }
  destruct (Hitem (filepath_Join fn (Name entry)) st)
    as (new1 & Hnew1 & Hord1).
  destruct (item (filepath_Join fn (Name entry)) st) as [s1 st1];
    simpl in *.
  destruct s1; try by exists new1.
  destruct (IH st1) as (new2 & Hnew2 & Hord2).
  exists (new1 ++ new2). rewrite Hnew2, Hnew1, <- app_assoc.
  split; [done|]. apply in_order_after_app; [done|].
  rewrite <- (app_nil_r ([] ++ new1)). by apply in_order_after_prepend.
Qed.

Lemma processDir_with_in_order
    (item : string → driver_state World → status * driver_state World)
    (fn : string) (st : driver_state World)
    (before : list effect) (info : FileInfo) :
  (∀ fn' st', ∃ new, trace World (item fn' st').2 = trace World st' ++ new
                ∧ ordered new) →
  IsDir info = true → HasPrefix (Name info) "." = false →
  ∃ new, trace World (runDir item fn st).2 = trace World st ++ new
    ∧ ordered_after (before ++ [CallLstat fn (inr info)]) new.
Proof.
  intros Hitem Hdir Hdot. unfold processDir_with.
  assert (∀ r, ordered_call (before ++ [CallLstat fn (inr info)])
                 (CallReadDir fn r)) as Hread.
  { intros r. by exists before, info. }
  destruct (ioutil_ReadDir (world World st) fn) as [err|entries].
  { eexists. simpl. rewrite <- app_assoc. split; [done|].
    apply in_order_after_cons; [done|].
    apply in_order_after_free. by repeat constructor. }
  destruct (for_entries_in_order item fn entries Hitem
              (emit World (CallReadDir fn (inr entries)) st))
    as (new & Hnew & Hord).
  exists (CallReadDir fn (inr entries) :: new). rewrite Hnew. simpl.
  rewrite <- app_assoc. split; [done|].
  apply in_order_after_cons; [done|].
  rewrite <- (app_nil_r (_ ++ [CallReadDir _ _])).
  by apply in_order_after_prepend.
Qed.

Lemma processItem_in_order (fuel : nat) :
  ∀ fn st, ∃ new,
    trace World (runItem fuel fn st).2 = trace World st ++ new
    ∧ ordered new.
Proof.
  induction fuel as [|fuel IH]; intros fn st; simpl.
  { exists []. split; [by rewrite app_nil_r|apply in_order_after_nil]. }
  destruct (os_Lstat (world World st) fn) as [err|info] eqn:Hstat.
  { eexists. simpl. rewrite <- app_assoc. split; [done|].
    apply in_order_after_free. by repeat constructor. }
  destruct (IsDir info) eqn:Hdir.
  - destruct (HasPrefix (Name info) ".") eqn:Hdot.
    { eexists. split; [done|]. apply in_order_after_free. by repeat constructor. }
    destruct (processDir_with_in_order (runItem fuel) fn
                (emit World (CallLstat fn (inr info)) st) [] info IH Hdir Hdot)
      as (new & Hnew & Hord).
    exists (CallLstat fn (inr info) :: new). rewrite Hnew. simpl.
    rewrite <- app_assoc. split; [done|].
    apply in_order_after_cons; [done|]. exact Hord.
  - set (said := if negb (FileMode_IsRegular (Mode info))
                 then [Printed (SkippingNotRegular fn)] else []).
    set (st1 := if negb (FileMode_IsRegular (Mode info))
                then emit World (Printed (SkippingNotRegular fn))
                       (emit World (CallLstat fn (inr info)) st)
                else emit World (CallLstat fn (inr info)) st).
    assert (trace World st1
            = trace World st ++ CallLstat fn (inr info) :: said) as Hst1.
    { subst st1 said. destruct (negb _); simpl; [|done].
      by rewrite <- app_assoc. }
    assert (Forall free (CallLstat fn (inr info) :: said)) as Hfree.
    { subst said. destruct (negb _); by repeat constructor. }
    destruct (HasSuffix fn ".tf") eqn:Hsuf; simpl.
    2:{ exists (CallLstat fn (inr info) :: said). split; [done|].
        by apply in_order_after_free. }
    destruct (processFile_in_order fn (Mode info) st1
                (CallLstat fn (inr info) :: said) info)
      as (new & Hnew & Hord); [by exists (@nil effect), said|done..|].
    exists ((CallLstat fn (inr info) :: said) ++ new).
    rewrite Hnew, Hst1, <- app_assoc. split; [done|].
    apply in_order_after_app; [by apply in_order_after_free|done].
Qed.

Lemma for_args_in_order (fuel : nat) (args : list string) :
  ∀ st, ∃ new,
    trace World
      (for_args World os_Lstat ioutil_ReadDir ioutil_ReadFile
         ioutil_WriteFile filepath_Join ParseConfig FileBytes range_order
         growslice fuel args st).2
    = trace World st ++ new
    ∧ ordered new.
Proof.
  induction args as [|arg rest IH]; intros st; simpl.
  { exists []. split; [by rewrite app_nil_r|apply in_order_after_nil]. }
  destruct (processItem_in_order fuel arg st) as (new1 & Hnew1 & Hord1).
  destruct (runItem fuel arg st) as [s1 st1]; simpl in *.
  destruct s1; try by exists new1.
  destruct (IH st1) as (new2 & Hnew2 & Hord2).
  exists (new1 ++ new2). rewrite Hnew2, Hnew1, <- app_assoc.
  split; [done|]. apply in_order_after_app; [done|].
  rewrite <- (app_nil_r ([] ++ new1)). by apply in_order_after_prepend.
Qed.

Lemma main_in_order (fuel : nat) (args : list string)
    (st : driver_state World) :
  ∃ new, trace World (runMain fuel args st).2 = trace World st ++ new
    ∧ ordered new.
Proof.
  unfold main. case_decide.
  { eexists. split; [done|]. apply in_order_after_free. by repeat constructor. }
  apply for_args_in_order.
Qed.

End DriverFacts.

Lemma demo_main_run :
  demo_main 3 ["m"] demo_start
  = (Returned,
     mkState (gmap string string) (<["m/a.tf" := "new"]> demo_world)
       deep_store demo_trace).
Proof. vm_compute. reflexivity. Qed.

Section DriverProperties.

Variable World : Type.
Variable os_Lstat : World → string → error + FileInfo.
Variable ioutil_ReadDir : World → string → error + list FileInfo.
Variable ioutil_ReadFile : World → string → error + string.
Variable ioutil_WriteFile :
  World → string → string → Z → option error * World.
Variable filepath_Join : string → string → string.
Variable ParseConfig : string → string → Body * list Diagnostic.
Variable FileBytes : Body → string.
Variable range_order : gmap string Attribute → list string.
Variable growslice : nat → nat → nat.

Local Abbreviation runFile :=
  (processFile World ioutil_ReadFile ioutil_WriteFile ParseConfig FileBytes
     range_order growslice).
Local Abbreviation runItem :=
  (processItem World os_Lstat ioutil_ReadDir ioutil_ReadFile
     ioutil_WriteFile filepath_Join ParseConfig FileBytes range_order
     growslice).
Local Abbreviation runMain :=
  (main World os_Lstat ioutil_ReadDir ioutil_ReadFile ioutil_WriteFile
     filepath_Join ParseConfig FileBytes range_order growslice).

Lemma main_called_in_order (fuel : nat) (args : list string)
    (st : driver_state World) (pre : list effect) (e : effect)
    (post : list effect) :
  trace World (runMain fuel args st).2 = trace World st ++ pre ++ e :: post →
  called_in_order ParseConfig FileBytes range_order growslice pre e.
Proof.
  intros Htrace.
  destruct (main_in_order World os_Lstat ioutil_ReadDir ioutil_ReadFile
              ioutil_WriteFile filepath_Join ParseConfig FileBytes
              range_order growslice fuel args st) as (new & Hnew & Hord).
  rewrite Hnew in Htrace. apply app_inv_head in Htrace.
  by apply (Hord pre e post).
Qed.

(** X9. Whatever [main] writes, it writes to a file whose name ends in [.tf],
    that [Lstat] did not report as a directory and that it has just read:
    the bytes written are those of the cleaned tree of a parse without
    errors of the bytes read, they differ from the bytes read, and the
    permission is the mode that [Lstat] gave. *)
Theorem main_writes_cleaned_tf_files (fuel : nat) (args : list string)
    (st : driver_state World) (pre : list effect) (fn data : string)
    (perm : Z) (result : option error) (post : list effect) :
  trace World (runMain fuel args st).2
  = trace World st ++ pre ++ CallWriteFile fn data perm result :: post →
  ∃ pre' info src σ cleaned,
    pre = pre' ++ [CallReadFile fn (inr src)]
    ∧ after_stat fn info pre'
    ∧ HasSuffix fn ".tf" = true
    ∧ perm = Mode info
    ∧ HasErrors (ParseConfig src fn).2 = false
    ∧ cleanFile range_order growslice (ParseConfig src fn).1 σ = Some cleaned
    ∧ data = FileBytes cleaned.1.1
    ∧ data ≠ src.
Proof. intros Htrace. exact (main_called_in_order _ _ _ _ _ _ Htrace). Qed.

(** X10. [main] reads a file only right after the [Lstat] of that path, which
    did not report a directory, and only when the path ends in [.tf]; a
    file that is not regular is read all the same, after the line that
    says it is skipped. *)
Theorem main_reads_tf_files_only (fuel : nat) (args : list string)
    (st : driver_state World) (pre : list effect) (fn : string)
    (result : error + string) (post : list effect) :
  trace World (runMain fuel args st).2
  = trace World st ++ pre ++ CallReadFile fn result :: post →
  ∃ pre' info,
    pre = pre' ++ CallLstat fn (inr info)
            :: (if negb (FileMode_IsRegular (Mode info))
                then [Printed (SkippingNotRegular fn)] else [])
    ∧ IsDir info = false ∧ HasSuffix fn ".tf" = true.
Proof.
  intros Htrace.
  destruct (main_called_in_order _ _ _ _ _ _ Htrace)
    as (info & (pre' & skip & -> & ->) & Hdir & Hsuf).
  by exists pre', info.
Qed.

(** X11. [main] lists a directory only right after the [Lstat] of that path,
    which reported a directory whose name does not begin with a dot. *)
Theorem main_skips_hidden_directories (fuel : nat) (args : list string)
    (st : driver_state World) (pre : list effect) (fn : string)
    (result : error + list FileInfo) (post : list effect) :
  trace World (runMain fuel args st).2
  = trace World st ++ pre ++ CallReadDir fn result :: post →
  ∃ pre' info,
    pre = pre' ++ [CallLstat fn (inr info)]
    ∧ IsDir info = true ∧ HasPrefix (Name info) "." = false.
Proof. intros Htrace. exact (main_called_in_order _ _ _ _ _ _ Htrace). Qed.

(** X12. A file that parses without errors into a tree in which no expression
    has the shape that a simplifier asks for, and whose tree prints as the
    bytes read, is left alone by [processFile]: nothing is written and
    nothing is printed. *)
Theorem processFile_leaves_clean_file (fn : string) (mode : Z)
    (st : driver_state World) (src : string) :
  (∀ m, range_order m ≡ₚ (map_to_list m).*1) →
  (∀ c n, n ≤ growslice c n) →
  ioutil_ReadFile (world World st) fn = inr src →
  HasErrors (ParseConfig src fn).2 = false →
  unmatched (ParseConfig src fn).1 = true →
  FileBytes (ParseConfig src fn).1 = src →
  ∃ σ', runFile fn mode st
        = (Returned,
           mkState World (world World st) σ'
             (trace World st ++ [CallReadFile fn (inr src)])).
Proof.
  intros Hperm Hfits Hread Herr Hun Hbytes. unfold processFile.
  rewrite Hread, Herr. simpl.
  pose proof (cleanBody_refines range_order growslice Hfits
                (ParseConfig src fn).1 nil_slice (heap World st)
                (nil_slice_ok _)) as Href.
  destruct (walk_unmatched range_order Hperm (ParseConfig src fn).1
              (contents (heap World st) nil_slice) Hun) as [log Hw].
  unfold cleanFile.
  destruct (cleanBody range_order growslice (ParseConfig src fn).1
              nil_slice (heap World st)) as [[[f' σ'] log']|];
    simpl in Href; [|congruence].
  destruct Href as [Hw' _]. rewrite Hw in Hw'. injection Hw' as <- <-.
  simpl. rewrite decide_True by done. by exists σ'.
Qed.

End DriverProperties.

Lemma main_writes_cleaned_tf_files_witness :
  ∃ pre' info src σ cleaned,
    take 5 demo_trace = pre' ++ [CallReadFile "m/a.tf" (inr src)]
    ∧ after_stat "m/a.tf" info pre'
    ∧ HasSuffix "m/a.tf" ".tf" = true
    ∧ file_mode = Mode info
    ∧ HasErrors (demo_ParseConfig src "m/a.tf").2 = false
    ∧ cleanFile sorted_order doubling (demo_ParseConfig src "m/a.tf").1 σ
      = Some cleaned
    ∧ "new" = demo_FileBytes cleaned.1.1
    ∧ "new" ≠ src.
Proof.
  apply (main_writes_cleaned_tf_files (gmap string string) demo_Lstat
           demo_ReadDir demo_ReadFile demo_WriteFile demo_Join
           demo_ParseConfig demo_FileBytes sorted_order doubling
           3 ["m"] demo_start (take 5 demo_trace) "m/a.tf" "new" file_mode
           None (drop 6 demo_trace)).
  vm_compute. reflexivity.
Defined.

Lemma main_reads_tf_files_only_witness :
  ∃ pre' info,
    take 4 demo_trace
    = pre' ++ CallLstat "m/a.tf" (inr info)
        :: (if negb (FileMode_IsRegular (Mode info))
            then [Printed (SkippingNotRegular "m/a.tf")] else [])
    ∧ IsDir info = false ∧ HasSuffix "m/a.tf" ".tf" = true.
Proof.
  apply (main_reads_tf_files_only (gmap string string) demo_Lstat
           demo_ReadDir demo_ReadFile demo_WriteFile demo_Join
           demo_ParseConfig demo_FileBytes sorted_order doubling
           3 ["m"] demo_start (take 4 demo_trace) "m/a.tf" (inr "old")
           (drop 5 demo_trace)).
  vm_compute. reflexivity.
Defined.

Lemma main_skips_hidden_directories_witness :
  ∃ pre' info,
    take 1 demo_trace = pre' ++ [CallLstat "m" (inr info)]
    ∧ IsDir info = true ∧ HasPrefix (Name info) "." = false.
Proof.
  apply (main_skips_hidden_directories (gmap string string) demo_Lstat
           demo_ReadDir demo_ReadFile demo_WriteFile demo_Join
           demo_ParseConfig demo_FileBytes sorted_order doubling
           3 ["m"] demo_start (take 1 demo_trace) "m"
           (inr [mkFileInfo ".git" dir_mode; mkFileInfo "a.tf" file_mode;
                 mkFileInfo "n.txt" file_mode])
           (drop 2 demo_trace)).
  vm_compute. reflexivity.
Defined.

Lemma processFile_leaves_clean_file_witness :
  ∃ σ', demo_processFile "p.tf" file_mode
          (mkState (gmap string string) {[ "p.tf" := "plain" ]} [] [])
        = (Returned,
           mkState (gmap string string) {[ "p.tf" := "plain" ]} σ'
             ([] ++ [CallReadFile "p.tf" (inr "plain")])).
Proof.
  destruct (processFile_leaves_clean_file (gmap string string) demo_ReadFile
              demo_WriteFile demo_ParseConfig demo_FileBytes sorted_order
              doubling "p.tf" file_mode
              (mkState (gmap string string) {[ "p.tf" := "plain" ]} [] [])
              "plain") as [σ' Hrun].
  - apply sorted_order_perm.
  - apply doubling_fits.
  - reflexivity.
  - reflexivity.
  - reflexivity.
  - reflexivity.
  - exists σ'. exact Hrun.
Defined.

Section DriverRuns.

Variable World : Type.
Variable os_Lstat : World → string → error + FileInfo.
Variable ioutil_ReadDir : World → string → error + list FileInfo.
Variable ioutil_ReadFile : World → string → error + string.
Variable ioutil_WriteFile :
  World → string → string → Z → option error * World.
Variable filepath_Join : string → string → string.
Variable ParseConfig : string → string → Body * list Diagnostic.
Variable FileBytes : Body → string.
Variable range_order : gmap string Attribute → list string.
Variable growslice : nat → nat → nat.

Local Abbreviation runFile :=
  (processFile World ioutil_ReadFile ioutil_WriteFile ParseConfig FileBytes
     range_order growslice).
Local Abbreviation runItem :=
  (processItem World os_Lstat ioutil_ReadDir ioutil_ReadFile
     ioutil_WriteFile filepath_Join ParseConfig FileBytes range_order
     growslice).
Local Abbreviation runEntries := (for_entries World filepath_Join).
Local Abbreviation runArgs :=
  (for_args World os_Lstat ioutil_ReadDir ioutil_ReadFile ioutil_WriteFile
     filepath_Join ParseConfig FileBytes range_order growslice).
Local Abbreviation runMain :=
  (main World os_Lstat ioutil_ReadDir ioutil_ReadFile ioutil_WriteFile
     filepath_Join ParseConfig FileBytes range_order growslice).
Local Abbreviation played :=
  (plays World os_Lstat ioutil_ReadDir ioutil_ReadFile ioutil_WriteFile).
Local Abbreviation replayed := (replay World ioutil_WriteFile).
Local Abbreviation ran :=
  (run_plays os_Lstat ioutil_ReadDir ioutil_ReadFile ioutil_WriteFile).

(** *** Fuel *)

Lemma processFile_has_fuel (fn : string) (mode : Z) (st : driver_state World) :
  (runFile fn mode st).1 ≠ NoFuel.
Proof.
  unfold processFile.
  destruct (ioutil_ReadFile (world World st) fn) as [err|src]; [done|].
  destruct (HasErrors (ParseConfig src fn).2); [done|].
  destruct (cleanFile range_order growslice _ _) as [cleaned|]; [|done].
  simpl. case_decide; [done|].
  by destruct (ioutil_WriteFile _ fn _ mode) as [[err|] w'].
Qed.

Lemma for_entries_agree
    (item1 item2 : string → driver_state World → status * driver_state World)
    (fn : string) (entries : list FileInfo) :
  (∀ entry st, entry ∈ entries →
     item1 (filepath_Join fn (Name entry)) st
     = item2 (filepath_Join fn (Name entry)) st
     ∧ (item2 (filepath_Join fn (Name entry)) st).1 ≠ NoFuel) →
  ∀ st, runEntries item1 fn entries st = runEntries item2 fn entries st
        ∧ (runEntries item2 fn entries st).1 ≠ NoFuel.
Proof.
  induction entries as [|entry rest IH]; intros Hitem st; simpl; [done|].
  destruct (Hitem entry st) as [-> Hfuel]; [by left|].
  destruct (item2 (filepath_Join fn (Name entry)) st) as [s1 st1]; simpl in *.
  destruct s1; try done.
  apply IH. intros e st' He. apply Hitem. by right.
Qed.

Lemma processItem_enough_fuel (rank : string → nat) :
  (∀ w fn entries entry,
     ioutil_ReadDir w fn = inr entries → entry ∈ entries →
     rank (filepath_Join fn (Name entry)) < rank fn) →
  ∀ fuel fn st, rank fn < fuel →
    (runItem fuel fn st).1 ≠ NoFuel
    ∧ ∀ more, runItem (fuel + more) fn st = runItem fuel fn st.
Proof.
  intros Hrank. induction fuel as [|fuel IH]; intros fn st Hlt; [lia|].
  assert (∀ more, runItem (S fuel + more) fn st = runItem (S fuel) fn st
                  ∧ (runItem (S fuel) fn st).1 ≠ NoFuel) as Hall.
  2:{ split; [apply (Hall 0)|apply Hall]. }
  intros more. simpl.
  destruct (os_Lstat (world World st) fn) as [err|info]; [done|].
  destruct (IsDir info).
  - destruct (HasPrefix (Name info) "."); [done|].
    unfold processDir_with. simpl.
    destruct (ioutil_ReadDir (world World st) fn) as [err|entries] eqn:Hdir;
      [done|].
    apply for_entries_agree. intros entry st' Hentry.
    destruct (IH (filepath_Join fn (Name entry)) st') as [Hfuel Hmore].
    { specialize (Hrank _ _ _ _ Hdir Hentry). lia. }
    by rewrite Hmore.
  - destruct (negb (HasSuffix fn ".tf")); [done|].
    split; [done|apply processFile_has_fuel].
Qed.

(** X13. With a rank of the paths that goes down from a directory to its
    entries, [main] with fuel above the rank of its arguments does not run
    out of fuel, and does the same with any more fuel. *)
Theorem main_enough_fuel (rank : string → nat) (fuel : nat)
    (args : list string) (st : driver_state World) :
  (∀ w fn entries entry,
     ioutil_ReadDir w fn = inr entries → entry ∈ entries →
     rank (filepath_Join fn (Name entry)) < rank fn) →
  (∀ arg, arg ∈ args → rank arg < fuel) →
  (runMain fuel args st).1 ≠ NoFuel
  ∧ ∀ more, runMain (fuel + more) args st = runMain fuel args st.
Proof.
  intros Hrank Hargs.
  assert (∀ more, runMain (fuel + more) args st = runMain fuel args st
                  ∧ (runMain fuel args st).1 ≠ NoFuel) as Hall.
  2:{ split; [apply (Hall 0)|apply Hall]. }
  intros more. unfold main. case_decide; [done|].
  clear H. revert st. induction args as [|arg rest IH]; intros st; simpl; [done|].
  destruct (processItem_enough_fuel rank Hrank fuel arg st) as [Hfuel Hmore].
  { apply Hargs. by left. }
  rewrite Hmore.
  destruct (runItem fuel arg st) as [s1 st1]; simpl in *.
  destruct s1; try done.
  apply IH. intros a Ha. apply Hargs. by right.
Qed.

(** *** The world *)

Lemma plays_app (w : World) (s1 s2 : list effect) :
  played w (s1 ++ s2) ↔ played w s1 ∧ played (foldl replayed w s1) s2.
Proof.
  revert w. induction s1 as [|e s1 IH]; intros w; simpl.
  { split; [by intros ?|by intros [_ ?]]. }
  rewrite IH. split; [intros (? & ? & ?)|intros ((? & ?) & ?)]; done.
Qed.

Lemma ran_refl (st : driver_state World) : ran st st.
Proof. exists []. by rewrite app_nil_r. Qed.

Lemma ran_trans (st1 st2 st3 : driver_state World) :
  ran st1 st2 → ran st2 st3 → ran st1 st3.
Proof.
  intros (n1 & Ht1 & Hp1 & Hw1) (n2 & Ht2 & Hp2 & Hw2).
  exists (n1 ++ n2). rewrite Ht2, Ht1, <- app_assoc. split; [done|].
  rewrite plays_app, foldl_app, <- Hw1. by split.
Qed.

Lemma ran_call (st : driver_state World) (e : effect) :
  played (world World st) [e] →
  (∀ fn data perm r, e ≠ CallWriteFile fn data perm r) →
  ran st (emit World e st).
Proof.
  intros Hp Hnw. exists [e]. split; [done|]. split; [done|].
  simpl. by destruct e as [| | | |fn data perm r]; [..|destruct (Hnw fn data perm r)].
Qed.

Lemma ran_print (st : driver_state World) (m : message) :
  ran st (emit World (Printed m) st).
Proof. by apply ran_call. Qed.

Lemma ran_write (st : driver_state World) (σ : store) (fn data : string)
    (perm : Z) :
  ran st
    (emit World
       (CallWriteFile fn data perm
          (ioutil_WriteFile (world World st) fn data perm).1)
       (mkState World (ioutil_WriteFile (world World st) fn data perm).2
          σ (trace World st))).
Proof. by eexists [_]. Qed.

Lemma ran_heap (st : driver_state World) (σ : store) :
  ran st (mkState World (world World st) σ (trace World st)).
Proof. exists []. by rewrite app_nil_r. Qed.

Lemma processFile_ran (fn : string) (mode : Z) (st : driver_state World) :
  ran st (runFile fn mode st).2.
Proof.
  unfold processFile.
  assert (ran st (emit World
            (CallReadFile fn (ioutil_ReadFile (world World st) fn)) st))
    as Hread by by apply ran_call.
  destruct (ioutil_ReadFile (world World st) fn) as [err|src].
  { eapply ran_trans; [exact Hread|apply ran_print]. }
  eapply ran_trans; [exact Hread|]. clear Hread.
  set (st1 := emit World (CallReadFile fn (inr src)) st).
  destruct (HasErrors (ParseConfig src fn).2).
  { simpl. generalize (ParseConfig src fn).2. intros diags.
    generalize st1. clear. induction diags as [|d diags IH]; intros st1; simpl.
    - apply ran_refl.
    - eapply ran_trans; [apply ran_print|apply IH]. }
  destruct (cleanFile range_order growslice _ _) as [cleaned|];
    [|apply ran_refl].
  simpl. case_decide; [apply (ran_heap st1)|].
  pose proof (ran_write st1 cleaned.1.2 fn (FileBytes cleaned.1.1) mode)
    as Hwrite.
  simpl in Hwrite.
  destruct (ioutil_WriteFile (world World st) fn (FileBytes cleaned.1.1) mode)
    as [[err|] w']; simpl in *.
  - eapply ran_trans; [exact Hwrite|].
    eapply ran_trans; apply ran_print.
  - eapply ran_trans; [exact Hwrite|]. apply ran_print.
Qed.

Lemma for_entries_ran
    (item : string → driver_state World → status * driver_state World)
    (fn : string) (entries : list FileInfo) :
  (∀ fn' st', ran st' (item fn' st').2) →
  ∀ st, ran st (runEntries item fn entries st).2.
Proof.
  intros Hitem. induction entries as [|entry rest IH]; intros st; simpl.
  { apply ran_refl. }
  pose proof (Hitem (filepath_Join fn (Name entry)) st) as H1.
  destruct (item (filepath_Join fn (Name entry)) st) as [s1 st1]; simpl in *.
  destruct s1; try done. eapply ran_trans; [exact H1|apply IH].
Qed.

Lemma processItem_ran (fuel : nat) :
  ∀ fn st, ran st (runItem fuel fn st).2.
Proof.
  induction fuel as [|fuel IH]; intros fn st; simpl; [apply ran_refl|].
  assert (ran st (emit World
            (CallLstat fn (os_Lstat (world World st) fn)) st))
    as Hstat by by apply ran_call.
  destruct (os_Lstat (world World st) fn) as [err|info].
  { eapply ran_trans; [exact Hstat|apply ran_print]. }
  eapply ran_trans; [exact Hstat|]. clear Hstat.
  set (st1 := emit World (CallLstat fn (inr info)) st).
  destruct (IsDir info).
  - destruct (HasPrefix (Name info) "."); [apply ran_refl|].
    unfold processDir_with.
    assert (ran st1 (emit World
              (CallReadDir fn (ioutil_ReadDir (world World st1) fn)) st1))
      as Hdir by by apply ran_call.
    destruct (ioutil_ReadDir (world World st1) fn) as [err|entries].
    { eapply ran_trans; [exact Hdir|apply ran_print]. }
    eapply ran_trans; [exact Hdir|]. by apply for_entries_ran.
  - eapply (ran_trans _
              (if negb (FileMode_IsRegular (Mode info))
               then emit World (Printed (SkippingNotRegular fn)) st1
               else st1)).
    { destruct (negb _); [apply ran_print|apply ran_refl]. }
    destruct (negb (HasSuffix fn ".tf")); [apply ran_refl|].
    apply processFile_ran.
Qed.

(** X14. What [main] adds to the trace are the calls that it made, one after
    the other, each with what the operating system gave in the world of
    that moment; and the world after [main] is the world before it with
    the recorded writes done in their order: nothing else of the program
    changes it. *)
Theorem main_changes_the_world_by_its_writes (fuel : nat)
    (args : list string) (st : driver_state World) :
  ∃ new,
    trace World (runMain fuel args st).2 = trace World st ++ new
    ∧ plays World os_Lstat ioutil_ReadDir ioutil_ReadFile ioutil_WriteFile
        (world World st) new
    ∧ world World (runMain fuel args st).2
      = foldl (replay World ioutil_WriteFile) (world World st) new.
Proof.
  change (ran st (runMain fuel args st).2).
  unfold main. case_decide; [apply ran_print|].
  clear H. revert st. induction args as [|arg rest IH]; intros st; simpl.
  { apply ran_refl. }
  pose proof (processItem_ran fuel arg st) as H1.
  destruct (runItem fuel arg st) as [s1 st1]; simpl in *.
  destruct s1; try done. eapply ran_trans; [exact H1|apply IH].
Qed.

End DriverRuns.

Lemma demo_rank_goes_down (w : gmap string string) (fn : string)
    (entries : list FileInfo) (entry : FileInfo) :
  demo_ReadDir w fn = inr entries → entry ∈ entries →
  demo_rank (demo_Join fn (Name entry)) < demo_rank fn.
Proof.
  unfold demo_ReadDir. intros Hdir Hin.
  repeat case_decide; simplify_eq;
    repeat (apply elem_of_cons in Hin as [->|Hin]);
    try (by apply elem_of_nil in Hin); vm_compute; lia.
Qed.

Lemma main_enough_fuel_witness :
  (demo_main 3 ["m"] demo_start).1 ≠ NoFuel
  ∧ ∀ more, demo_main (3 + more) ["m"] demo_start
            = demo_main 3 ["m"] demo_start.
Proof.
  apply (main_enough_fuel (gmap string string) demo_Lstat demo_ReadDir
           demo_ReadFile demo_WriteFile demo_Join demo_ParseConfig
           demo_FileBytes sorted_order doubling demo_rank 3 ["m"] demo_start).
  - apply demo_rank_goes_down.
  - intros arg Harg. apply list_elem_of_singleton in Harg as ->.
    vm_compute. lia.
Defined.

Section DriverCrash.

Variable World : Type.
Variable os_Lstat : World → string → error + FileInfo.
Variable ioutil_ReadDir : World → string → error + list FileInfo.
Variable ioutil_ReadFile : World → string → error + string.
Variable ioutil_WriteFile :
  World → string → string → Z → option error * World.
Variable filepath_Join : string → string → string.
Variable ParseConfig : string → string → Body * list Diagnostic.
Variable FileBytes : Body → string.
Variable range_order : gmap string Attribute → list string.
Variable growslice : nat → nat → nat.

Local Abbreviation runFile :=
  (processFile World ioutil_ReadFile ioutil_WriteFile ParseConfig FileBytes
     range_order growslice).
Local Abbreviation runItem :=
  (processItem World os_Lstat ioutil_ReadDir ioutil_ReadFile
     ioutil_WriteFile filepath_Join ParseConfig FileBytes range_order
     growslice).
Local Abbreviation runMain :=
  (main World os_Lstat ioutil_ReadDir ioutil_ReadFile ioutil_WriteFile
     filepath_Join ParseConfig FileBytes range_order growslice).
Local Abbreviation crashed :=
  (crashed_in_cleanFile ParseConfig range_order growslice).

Lemma crashed_later (st st1 : driver_state World) (new : list effect)
    (r : status * driver_state World) :
  trace World st1 = trace World st ++ new →
  crashed st1 r → crashed st r.
Proof.
  intros Hnew Hr Hp. destruct (Hr Hp) as (pre & fn & src & Ht & Hrest).
  exists (new ++ pre), fn, src. rewrite Ht, Hnew, <- !app_assoc. by split.
Qed.

Lemma processFile_crashed (fn : string) (mode : Z) (st : driver_state World) :
  crashed st (runFile fn mode st).
Proof.
  unfold processFile, crashed_in_cleanFile.
  destruct (ioutil_ReadFile (world World st) fn) as [err|src]; [done|].
  destruct (HasErrors (ParseConfig src fn).2) eqn:Herr; [done|].
  simpl.
  destruct (cleanFile range_order growslice _ _) as [cleaned|] eqn:Hclean;
    simpl.
  - case_decide; [done|].
    by destruct (ioutil_WriteFile _ fn _ mode) as [[err|] w'].
  - intros _. by exists [], fn, src.
Qed.

Lemma for_entries_crashed
    (item : string → driver_state World → status * driver_state World)
    (fn : string) (entries : list FileInfo) :
  (∀ fn' st', crashed st' (item fn' st')
              ∧ ∃ new, trace World (item fn' st').2 = trace World st' ++ new) →
  ∀ st, crashed st
          (for_entries World filepath_Join item fn entries st).
Proof.
  intros Hitem. induction entries as [|entry rest IH]; intros st; simpl;
    [done|].
  destruct (Hitem (filepath_Join fn (Name entry)) st) as [Hc [new Hnew]].
  destruct (item (filepath_Join fn (Name entry)) st) as [s1 st1]; simpl in *.
  destruct s1; try done. by eapply crashed_later.
Qed.

Lemma processItem_crashed (fuel : nat) :
  ∀ fn st, crashed st (runItem fuel fn st).
Proof.
  induction fuel as [|fuel IH]; intros fn st; simpl; [done|].
  destruct (os_Lstat (world World st) fn) as [err|info]; [done|].
  destruct (IsDir info).
  - destruct (HasPrefix (Name info) "."); [done|].
    unfold processDir_with.
    destruct (ioutil_ReadDir _ fn) as [err|entries]; [done|].
    eapply crashed_later.
    2:{ apply for_entries_crashed. intros fn' st'. split; [apply IH|].
        destruct (processItem_in_order World os_Lstat ioutil_ReadDir
                    ioutil_ReadFile ioutil_WriteFile filepath_Join ParseConfig
                    FileBytes range_order growslice fuel fn' st')
          as (new & Hnew & _).
        by exists new. }
    simpl. by rewrite <- app_assoc.
  - destruct (negb (HasSuffix fn ".tf")); [done|].
    destruct (negb (FileMode_IsRegular (Mode info))).
    + eapply crashed_later; [|apply processFile_crashed].
      simpl. by rewrite <- app_assoc.
    + eapply crashed_later; [|apply processFile_crashed]. done.
Qed.

(** X15. [main] panics only in [cleanFile]: the last thing it did was to
    read a file, whose bytes parsed without errors into a tree on which
    [cleanFile] panics; nothing has been written to that file. *)
Theorem main_panics_in_cleanFile (fuel : nat) (args : list string)
    (st : driver_state World) :
  (runMain fuel args st).1 = Panicked →
  ∃ pre fn src,
    trace World (runMain fuel args st).2
    = trace World st ++ pre ++ [CallReadFile fn (inr src)]
    ∧ HasErrors (ParseConfig src fn).2 = false
    ∧ cleanFile range_order growslice (ParseConfig src fn).1
        (heap World (runMain fuel args st).2) = None.
Proof.
  change (crashed st (runMain fuel args st)).
  unfold main. case_decide; [done|]. clear H.
  revert st. induction args as [|arg rest IH]; intros st; simpl; [done|].
  pose proof (processItem_crashed fuel arg st) as Hc.
  destruct (processItem_in_order World os_Lstat ioutil_ReadDir
              ioutil_ReadFile ioutil_WriteFile filepath_Join ParseConfig
              FileBytes range_order growslice fuel arg st)
    as (new & Hnew & _).
  destruct (runItem fuel arg st) as [s1 st1]; simpl in *.
  destruct s1; try done. by eapply crashed_later.
Qed.

End DriverCrash.

Lemma main_panics_in_cleanFile_witness :
  ∃ pre fn src,
    trace unit
      (crash_main 1 ["b.tf"] (mkState unit () [] [])).2
    = [] ++ pre ++ [CallReadFile fn (inr src)]
    ∧ HasErrors (crash_ParseConfig src fn).2 = false
    ∧ cleanFile sorted_order doubling (crash_ParseConfig src fn).1
        (heap unit (crash_main 1 ["b.tf"] (mkState unit () [] [])).2)
      = None.
Proof.
  apply (main_panics_in_cleanFile unit crash_Lstat crash_ReadDir
           crash_ReadFile crash_WriteFile demo_Join crash_ParseConfig
           demo_FileBytes sorted_order doubling 1 ["b.tf"]
           (mkState unit () [] [])).
  vm_compute. reflexivity.
Defined.
